(** * Schnek: dependency map, update-order resolver and dependency updater

    A shallow embedding of [dependencies.cpp] (the second part of
    [src/src/domain.h]) and the verification of its specification.

    - [std::map<long, VarInfo>] is a [gmap Z VarInfo]; iterating it visits the
      keys in ascending order ([map_iter]).
    - [std::set<long>] is a [gset Z], iterated in ascending order ([set_iter]).
    - [std::set<pVariable>] is a [gset pVariable]; it is ordered by pointer
      value, an order the program does not control, so its iteration order
      is the (fixed but unspecified) order of [elements].
    - A [RefDepMap] maps an identifier to a pointer into [dependencies]; the
      code only ever stores [&dependencies[id]] under key [id], so the map is
      represented by its key set and a pointer is dereferenced by looking the
      key up in the dependency map.  The working sets hold such pointers and
      are lists of keys.
    - [throw] and a failing [assert] are outcomes of their own ([Threw],
      [AssertFailed]); assertions are modelled as compiled in.
    - [counter] is an [int]; the counts stored in it are bounded by the size
      of a [dependsOn] set, and sets of 2^31 elements are outside the model. *)

From Stdlib Require Import ZArith Lia.
From stdpp Require Import base gmap sets list sorting.

Local Open Scope Z_scope.

(** ** The interface of the missing headers *)

(** What the code uses of [Variable], [Expression], [DependenciesGetter] and
    of the constructors of [VarInfo], all declared in headers that are not
    part of the sources at hand. *)
Class VariableModel := {
  (** [pVariable]: shared pointers to variables, compared by address *)
  pVariable : Type;
  pVariable_eq_dec :: EqDecision pVariable;
  pVariable_countable :: Countable pVariable;
  (** [v->getId()] *)
  getId : pVariable → Z;
  (** [v->isConstant()] *)
  isConstant : pVariable → bool;
  (** [boost::apply_visitor(DependenciesGetter(), v->getExpression())] *)
  getDependencies : pVariable → gset Z;
  (** the value of [counter] in a default-constructed [VarInfo] *)
  counter_default : Z;
  (** the value of [counter] after [VarInfo(v, dep, modifies)] *)
  counter_init : Z;
}.

(** ** Data *)

Section Model.
Context `{VM : VariableModel}.

Record VarInfo := mkVarInfo {
  v : option pVariable;        (* a shared pointer, possibly null *)
  dependsOn : gset Z;
  modifies : gset Z;
  counter : Z;
}.

(** [VarInfo()] *)
Definition VarInfo_default : VarInfo :=
  {| v := None; dependsOn := ∅; modifies := ∅; counter := counter_default |}.

(** [VarInfo(v, dep, modifies)] *)
Definition VarInfo_new (pv : pVariable) (dep mods : gset Z) : VarInfo :=
  {| v := Some pv; dependsOn := dep; modifies := mods; counter := counter_init |}.

#[global] Instance VarInfo_inhabited : Inhabited VarInfo := populate VarInfo_default.

Definition set_modifies (n : VarInfo) (s : gset Z) : VarInfo :=
  {| v := v n; dependsOn := dependsOn n; modifies := s; counter := counter n |}.

Definition set_counter (n : VarInfo) (c : Z) : VarInfo :=
  {| v := v n; dependsOn := dependsOn n; modifies := modifies n; counter := c |}.

(** [pBlockVariables]: [getVariables] in the iteration order of the
    [VariableMap], [getChildren] in list order. *)
Inductive BlockVariables :=
  Block (getVariables : list pVariable) (getChildren : list BlockVariables).

Inductive Exception := SchnekException.

Inductive Outcome (A : Type) :=
| Returned (a : A)
| Threw (e : Exception)
| AssertFailed
| OutOfFuel.

End Model.

Arguments Returned {_} _.
Arguments Threw {_} _.
Arguments AssertFailed {_}.
Arguments OutOfFuel {_}.

#[global] Instance Outcome_bind : MBind Outcome := λ A B f o,
  match o with
  | Returned a => f a
  | Threw e => Threw e
  | AssertFailed => AssertFailed
  | OutOfFuel => OutOfFuel
  end.

#[global] Instance Outcome_fmap : FMap Outcome := λ A B f o,
  match o with
  | Returned a => Returned (f a)
  | Threw e => Threw e
  | AssertFailed => AssertFailed
  | OutOfFuel => OutOfFuel
  end.

(** Ascending iteration over a [std::set<long>] and over the keys of a
    [std::map<long, _>]. *)
Definition set_iter (s : gset Z) : list Z := merge_sort Z.le (elements s).
Definition map_iter {A} (m : gmap Z A) : list Z := set_iter (dom m).

Abbreviation DepMap := (gmap Z VarInfo).
Abbreviation VariableSet := (gset pVariable).
Abbreviation VariableList := (list (option pVariable)).

Section Operations.
Context `{VM : VariableModel}.

(** ** DependencyMap: construction *)

(** The body of the first loop of [constructMapRecursive]. *)
Definition addVariable (m : DepMap) (pv : pVariable) : Outcome DepMap :=
  if isConstant pv then Returned m
  else
    let dep := getDependencies pv in
    let id := getId pv in
    if decide (is_Some (m !! id)) then Threw SchnekException
    else Returned (<[id := VarInfo_new pv dep ∅]> m).

Fixpoint addVariables (m : DepMap) (vs : list pVariable) : Outcome DepMap :=
  match vs with
  | [] => Returned m
  | pv :: vs' => m' ← addVariable m pv; addVariables m' vs'
  end.

Fixpoint constructMapRecursive (vars : BlockVariables) (m : DepMap) : Outcome DepMap :=
  match vars with
  | Block vs chs =>
      m1 ← addVariables m vs;
      (fix children (chs : list BlockVariables) (m : DepMap) : Outcome DepMap :=
         match chs with
         | [] => Returned m
         | ch :: rest => m' ← constructMapRecursive ch m; children rest m'
         end) chs m1
  end.

(** [dependencies[id].modifies.insert(k)]: [operator[]] creates a
    default node when [id] has none. *)
Definition insertModifies (k : Z) (m : DepMap) (id : Z) : DepMap :=
  let n := default VarInfo_default (m !! id) in
  <[id := set_modifies n ({[k]} ∪ modifies n)]> m.

(** The body of the outer loop of [constructMap]; [entry] is a copy of the
    pair stored under [k]. *)
Definition constructMap_entry (m : DepMap) (k : Z) : DepMap :=
  match m !! k with
  | Some entry => foldl (insertModifies k) m (set_iter (dependsOn entry))
  | None => m
  end.

(** The loop of [constructMap] runs over the keys present when it starts:
    a node created by [operator[]] during the loop has an empty [dependsOn],
    so visiting it does nothing. *)
Definition constructMap (vars : BlockVariables) (m : DepMap) : Outcome DepMap :=
  m1 ← constructMapRecursive vars m;
  Returned (foldl constructMap_entry m1 (map_iter m1)).

(** [DependencyMap::DependencyMap(vars)]; [blockVars] is not modelled. *)
Definition DependencyMap_new (vars : BlockVariables) : Outcome DepMap :=
  constructMap vars ∅.

(** [resetCounters]: [entry] is declared by value, the assignment goes to
    the copy. *)
Definition resetCounters_entry (m : DepMap) (k : Z) : DepMap :=
  match m !! k with
  | Some entry =>
      let entry' := set_counter entry (Z.of_nat (size (dependsOn entry))) in
      m
  | None => m
  end.

Definition resetCounters (m : DepMap) : DepMap :=
  foldl resetCounters_entry m (map_iter m).

(** ** DependencyMap: the three phases of makeUpdateList *)

(** [&(dependencies[id])] *)
Definition touch (m : DepMap) (id : Z) : DepMap :=
  match m !! id with
  | Some _ => m
  | None => <[id := VarInfo_default]> m
  end.

(** State of [makeUpdatePredecessors]: the dependency map, the working set
    and the keys of [predecessors]. *)
Definition PredState : Type := DepMap * list Z * gset Z.

Definition pred_init (st : PredState) (pv : pVariable) : PredState :=
  let '(m, ws, pred) := st in
  let id := getId pv in
  (touch m id, ws ++ [id], {[id]} ∪ pred).

Definition pred_visit (st : PredState) (id : Z) : PredState :=
  let '(m, ws, pred) := st in
  if decide (id ∈ pred) then st
  else (touch m id, ws ++ [id], {[id]} ∪ pred).

Fixpoint pred_loop (fuel : nat) (st : PredState) : Outcome (DepMap * gset Z) :=
  let '(m, ws, pred) := st in
  match ws with
  | [] => Returned (m, pred)
  | vi :: ws' =>
      match fuel with
      | O => OutOfFuel
      | S fuel' =>
          pred_loop fuel' (foldl pred_visit (m, ws', pred) (set_iter (dependsOn (m !!! vi))))
      end
  end.

(** Every identifier the map mentions as a key or in a [dependsOn] set.
    Each round of the loop of [makeUpdatePredecessors] takes one element out
    of the working set and puts an identifier into it only when it enters
    [predecessors], so the number of these identifiers plus the length of
    the working set bounds the number of rounds; the fuel is never used up
    ([makeUpdatePredecessors_spec]). *)
Definition allIds (m : DepMap) : gset Z :=
  dom m ∪ ⋃ (map (λ kn, dependsOn kn.2) (map_to_list m)).

Definition makeUpdatePredecessors (m : DepMap) (dependentVars : VariableSet)
  : Outcome (DepMap * gset Z) :=
  let '(m1, ws, pred) := foldl pred_init (m, [], ∅) (elements dependentVars) in
  pred_loop (size (allIds m1) + length ws)%nat (m1, ws, pred).

Definition FollState : Type := list Z * gset Z.

Definition foll_init (pred : gset Z) (st : FollState) (pv : pVariable) : FollState :=
  let '(ws, foll) := st in
  let id := getId pv in
  if decide (id ∈ pred) then (ws ++ [id], {[id]} ∪ foll) else st.

Definition foll_visit (pred : gset Z) (st : FollState) (id : Z) : FollState :=
  let '(ws, foll) := st in
  if decide (id ∈ foll ∨ id ∉ pred) then st
  else (ws ++ [id], {[id]} ∪ foll).

Fixpoint foll_loop (fuel : nat) (m : DepMap) (pred : gset Z) (st : FollState)
  : Outcome (gset Z) :=
  let '(ws, foll) := st in
  match ws with
  | [] => Returned foll
  | vi :: ws' =>
      match fuel with
      | O => OutOfFuel
      | S fuel' =>
          foll_loop fuel' m pred
            (foldl (foll_visit pred) (ws', foll) (set_iter (modifies (m !!! vi))))
      end
  end.

(** The followers are taken from [pred], which bounds the rounds of the
    loop in the same way ([makeUpdateFollowers_spec]). *)
Definition makeUpdateFollowers (m : DepMap) (independentVars : VariableSet)
    (pred : gset Z) : Outcome (gset Z) :=
  let '(ws, foll) := foldl (foll_init pred) ([], ∅) (elements independentVars) in
  foll_loop (size pred + length ws)%nat m pred (ws, foll).

(** The counting loop of [makeUpdateOrder]: the [dependsOn] entries that
    are keys of [deps]. *)
Definition count_in (deps : gset Z) (s : gset Z) : Z :=
  foldl (λ count id, if decide (id ∈ deps) then count + 1 else count) 0 (set_iter s).

Definition order_init (deps : gset Z) (st : DepMap * list Z) (k : Z) : DepMap * list Z :=
  let '(m, ws) := st in
  let count := count_in deps (dependsOn (m !!! k)) in
  (alter (λ vi, set_counter vi count) k m, ws ++ [k]).

(** The scan for the first element of the working set whose counter is
    zero; it returns the element and the working set after [erase]. *)
Fixpoint find_zero (m : DepMap) (ws : list Z) : option (Z * list Z) :=
  match ws with
  | [] => None
  | k :: rest =>
      if decide (counter (m !!! k) = 0) then Some (k, rest)
      else '(x, rest') ← find_zero m rest; Some (x, k :: rest')
  end.

Definition order_dec (deps : gset Z) (om : Outcome DepMap) (id : Z) : Outcome DepMap :=
  m ← om;
  if decide (id ∈ deps) then
    let m' := alter (λ vi, set_counter vi (counter vi - 1)) id m in
    if decide (0 ≤ counter (m' !!! id)) then Returned m' else AssertFailed
  else Returned m.

Fixpoint order_loop (fuel : nat) (deps : gset Z) (m : DepMap) (ws : list Z)
    (updateList : VariableList) : Outcome (DepMap * VariableList) :=
  match ws with
  | [] => Returned (m, updateList)
  | _ :: _ =>
      match fuel with
      | O => OutOfFuel
      | S fuel' =>
          match find_zero m ws with
          | None => AssertFailed
          | Some (k, ws') =>
              let nextEval := m !!! k in
              m' ← foldl (order_dec deps) (Returned m) (set_iter (modifies nextEval));
              order_loop fuel' deps m' ws' (updateList ++ [v nextEval])
          end
      end
  end.

(** Each round of the main loop erases one element of the working set,
    so its length is fuel enough ([makeUpdateOrder_outcome]). *)
Definition makeUpdateOrder (independentVars : VariableSet) (m : DepMap) (deps : gset Z)
  : Outcome (DepMap * VariableList) :=
  let '(m1, ws) := foldl (order_init deps) (m, []) (set_iter deps) in
  order_loop (length ws) deps m1 ws [].

Definition makeUpdateList (m : DepMap) (independentVars dependentVars : VariableSet)
  : Outcome (DepMap * VariableList) :=
  '(m1, reverseDeps) ← makeUpdatePredecessors m dependentVars;
  deps ← makeUpdateFollowers m1 independentVars reverseDeps;
  makeUpdateOrder independentVars m1 deps.

(** ** DependencyUpdater *)

(** The members [dependencies], [independentVars], [dependentVars] and
    [isValid] are the ones the member functions use; the class declaration
    is in the missing header, and [updateList], the cached list, is taken
    from the specification. *)
Record DependencyUpdater := mkDependencyUpdater {
  dependencies : DepMap;
  independentVars : VariableSet;
  dependentVars : VariableSet;
  updateList : VariableList;
  isValid : bool;
}.

(** [DependencyUpdater::DependencyUpdater(dependencies_)]: the members not
    named in the initialiser list are default-constructed. *)
Definition DependencyUpdater_new (dependencies_ : DepMap) : DependencyUpdater :=
  {| dependencies := dependencies_; independentVars := ∅; dependentVars := ∅;
     updateList := []; isValid := true |}.

Definition addIndependent (u : DependencyUpdater) (pv : pVariable) : DependencyUpdater :=
  {| dependencies := dependencies u;
     independentVars := {[pv]} ∪ independentVars u;
     dependentVars := dependentVars u;
     updateList := updateList u;
     isValid := false |}.

Definition addDependent (u : DependencyUpdater) (pv : pVariable) : DependencyUpdater :=
  {| dependencies := dependencies u;
     independentVars := independentVars u;
     dependentVars := {[pv]} ∪ dependentVars u;
     updateList := updateList u;
     isValid := false |}.

End Operations.

(** ** Vocabulary of the specification *)

Section Specification.
Context `{VM : VariableModel}.

(** The fields of the node stored under [k]; an absent key reads as the
    default node, which has no edges and no variable. *)
Definition deps_of (m : DepMap) (k : Z) : gset Z := dependsOn (m !!! k).
Definition mods_of (m : DepMap) (k : Z) : gset Z := modifies (m !!! k).
Definition var_of (m : DepMap) (k : Z) : option pVariable := v (m !!! k).
Definition ctr_of (m : DepMap) (k : Z) : Z := counter (m !!! k).

(** [modifies] is the inverse of [dependsOn]. *)
Definition inverse_edges (m : DepMap) : Prop :=
  ∀ x y, x ∈ deps_of m y ↔ y ∈ mods_of m x.

(** A node that carries a variable is stored under the variable's id. *)
Definition keyed_by_id (m : DepMap) : Prop :=
  ∀ k pv, var_of m k = Some pv → getId pv = k.

(** The variables of a scope tree in the order [constructMapRecursive]
    visits them. *)
Fixpoint block_variables (vars : BlockVariables) : list pVariable :=
  match vars with
  | Block vs chs =>
      vs ++ (fix children (chs : list BlockVariables) : list pVariable :=
               match chs with
               | [] => []
               | ch :: rest => block_variables ch ++ children rest
               end) chs
  end.

(** The identifiers of a set of variables. *)
Definition ids_of (s : VariableSet) : gset Z := set_map getId s.

(** Backward closure of the dependents along [dependsOn]. *)
Inductive required (m : DepMap) (dependents : gset Z) : Z → Prop :=
| required_dependent id :
    id ∈ dependents → required m dependents id
| required_dependsOn x y :
    required m dependents y → x ∈ deps_of m y → required m dependents x.

(** Forward closure of the independents along [modifies] inside [R]. *)
Inductive relevant (m : DepMap) (independents : gset Z) (R : Z → Prop) : Z → Prop :=
| relevant_independent id :
    id ∈ independents → R id → relevant m independents R id
| relevant_modifies x y :
    relevant m independents R x → y ∈ mods_of m x → R y →
    relevant m independents R y.

(** The nodes resolution is about: required by a dependent and reachable
    from an independent inside the required set. *)
Definition in_subgraph (m : DepMap) (indep dep : VariableSet) (id : Z) : Prop :=
  relevant m (ids_of indep) (required m (ids_of dep)) id.

(** The states a [DependencyMap] object can be in. *)
Inductive reachable : DepMap → Prop :=
| reachable_new vars m :
    DependencyMap_new vars = Returned m → reachable m
| reachable_resetCounters m :
    reachable m → reachable (resetCounters m)
| reachable_makeUpdateList m indep dep m' out :
    reachable m → makeUpdateList m indep dep = Returned (m', out) → reachable m'.

(** The dependency map only grows by default nodes, and no node changes
    its variable or its edges. *)
Definition evolves (m m' : DepMap) : Prop :=
  ∀ k, (is_Some (m !! k) → is_Some (m' !! k)) ∧
       deps_of m' k = deps_of m k ∧ mods_of m' k = mods_of m k ∧
       var_of m' k = var_of m k.

(** A dependency cycle among the given nodes, as the list of its nodes:
    each depends on the next and the last on the first. *)
Fixpoint chain (m : DepMap) (first : Z) (l : list Z) : Prop :=
  match l with
  | [] => False
  | [x] => first ∈ deps_of m x
  | x :: ((y :: _) as rest) => y ∈ deps_of m x ∧ chain m first rest
  end.

Definition is_cycle (m : DepMap) (l : list Z) : Prop :=
  match l with
  | [] => False
  | x :: _ => chain m x l
  end.

(** The dependency map with [id] taken out of the [dependsOn] set of the
    node [y]. *)
Definition dropDependsOn (y id : Z) (m : DepMap) : DepMap :=
  alter (λ n, {| v := v n; dependsOn := dependsOn n ∖ {[id]};
                 modifies := modifies n; counter := counter n |}) y m.

End Specification.

(** ** Invariants of the loops *)

Section Invariants.
Context `{VM : VariableModel}.

(** After the first pass every node carries the variable it was made from
    and has no [modifies] entry yet. *)
Definition fresh_nodes (m : DepMap) : Prop :=
  ∀ k n, m !! k = Some n →
    modifies n = ∅ ∧ ∃ pv, v n = Some pv ∧ getId pv = k.

(** Same keys, same variables and edges: only counters may differ. *)
Definition same_edges (m m' : DepMap) : Prop :=
  dom m' = dom m ∧
  ∀ k, deps_of m' k = deps_of m k ∧ mods_of m' k = mods_of m k ∧
       var_of m' k = var_of m k.

(** Phase 1: [pred] holds required nodes only, and the nodes that have
    left the working set have all their dependencies in [pred]. *)
Definition pred_inv (m0 : DepMap) (B : gset Z) (st : PredState) : Prop :=
  let '(m, ws, pred) := st in
  evolves m0 m ∧ B ⊆ pred ∧ (∀ x, x ∈ pred → required m0 B x) ∧
  (∀ x, x ∈ ws → x ∈ pred) ∧ dom m = pred ∪ dom m0 ∧
  (∀ y, y ∈ pred → y ∈ ws ∨ deps_of m0 y ⊆ pred).

(** Phase 2: the same for the followers inside the predecessors [P]. *)
Definition foll_inv (m : DepMap) (A P : gset Z) (st : FollState) : Prop :=
  let '(ws, foll) := st in
  A ∩ P ⊆ foll ∧ (∀ x, x ∈ foll → relevant m A (λ y, y ∈ P) x) ∧
  (∀ x, x ∈ ws → x ∈ foll) ∧
  (∀ y, y ∈ foll → y ∈ ws ∨ mods_of m y ∩ P ⊆ foll).

(** Every dependency inside [D] of an element of the list stands at an
    earlier position of the list. *)
Definition precede (m0 : DepMap) (D : gset Z) (done : list Z) : Prop :=
  ∀ j y, done !! j = Some y → ∀ x, x ∈ deps_of m0 y → x ∈ D →
    ∃ i, (i < j)%nat ∧ done !! i = Some x.

(** [done] has been moved to the update list, [ws] is the working set, and
    a counter holds the number of dependencies still in the working set. *)
Definition order_inv (m0 : DepMap) (D : gset Z) (m : DepMap) (done ws : list Z) : Prop :=
  same_edges m0 m ∧ NoDup (done ++ ws) ∧ list_to_set (done ++ ws) = D ∧
  (∀ y, y ∈ ws → ctr_of m y = Z.of_nat (size (deps_of m0 y ∩ list_to_set ws))) ∧
  precede m0 D done.

End Invariants.

(** ** Further vocabulary *)

Section Graphs.
Context `{VM : VariableModel}.

(** The variables [constructMapRecursive] makes nodes of. *)
Definition nonconstant (l : list pVariable) : list pVariable :=
  filter (λ pv, isConstant pv = false) l.

(** Two dependency maps with the same variable and the same edges at
    every key; keys without a node read as the default node. *)
Definition same_graph (m m' : DepMap) : Prop :=
  ∀ k, deps_of m' k = deps_of m k ∧ mods_of m' k = mods_of m k ∧
       var_of m' k = var_of m k.

(** Each element of the list depends on the next one. *)
Fixpoint linked (m : DepMap) (l : list Z) : Prop :=
  match l with
  | a :: ((b :: _) as rest) => b ∈ deps_of m a ∧ linked m rest
  | _ => True
  end.

(** What the main loop of [makeUpdateOrder] reads of two maps when it
    runs on [D]: the nodes of [D] exist, variables and [modifies] sets
    agree, and so do the counters of the nodes of [D]. *)
Definition agree_on (D : gset Z) (a b : DepMap) : Prop :=
  D ⊆ dom a ∧ D ⊆ dom b ∧
  (∀ k, mods_of b k = mods_of a k ∧ var_of b k = var_of a k) ∧
  (∀ k, k ∈ D → ctr_of b k = ctr_of a k).

(** In a list of node identifiers, a smaller identifier stands behind a
    larger one only if it depends on a node at or behind the position of
    the larger one and before its own. *)
Definition smallest_ready_first (m : DepMap) (ids : list Z) : Prop :=
  ∀ i j x y, ids !! i = Some x → ids !! j = Some y → (i < j)%nat → y < x →
    ∃ k z, (i ≤ k < j)%nat ∧ ids !! k = Some z ∧ z ∈ deps_of m y.

(** A node of the working set that is smaller than a node already in the
    list has a dependency that is still in the working set or went into
    the list at or after the position of the larger node. *)
Definition pending (m0 : DepMap) (done ws : list Z) : Prop :=
  ∀ i x y, done !! i = Some x → y ∈ ws → y < x →
    ∃ z, z ∈ deps_of m0 y ∧ (z ∈ ws ∨ ∃ k, (i ≤ k)%nat ∧ done !! k = Some z).

End Graphs.

(** ** A concrete variable model for examples *)

(** A variable is its identifier, its constancy flag and the identifiers
    its expression reads. *)
#[local] Instance example_model : VariableModel := {|
  pVariable := Z * (bool * list Z);
  getId := fst;
  isConstant := λ pv, fst (snd pv);
  getDependencies := λ pv, list_to_set (snd (snd pv));
  counter_default := 0;
  counter_init := 0;
|}.

Definition var (id : Z) (ds : list Z) : pVariable := (id, (false, ds)).
Definition const (id : Z) : pVariable := (id, (true, [])).
Definition only (pv : pVariable) : VariableSet := {[pv]}.

(** The map a scope tree is built into (empty when the constructor throws). *)
Definition built (vars : BlockVariables) : DepMap :=
  match DependencyMap_new vars with
  | Returned m => m
  | _ => ∅
  end.

(** The map a resolve call leaves behind. *)
Definition map_after (o : Outcome (DepMap * VariableList)) : DepMap :=
  match o with
  | Returned (m, _) => m
  | _ => ∅
  end.

(** A: no dependencies, B reads A, C reads B, D unrelated. *)
Definition vA : pVariable := var 1 [].
Definition vB : pVariable := var 2 [1].
Definition vC : pVariable := var 3 [2].
Definition vD : pVariable := var 4 [].
Definition abc : BlockVariables := Block [vA; vB] [Block [vC; vD] []].
Definition abc_map : DepMap := built abc.
Definition abc_resolved : Outcome (DepMap * VariableList) :=
  makeUpdateList abc_map (only vA) (only vC).

(** Two variables that read each other, and one that reads the constant 7. *)
Definition cyc : BlockVariables := Block [var 1 [2]; var 2 [1]; var 3 [7]] [].
Definition cyc_map : DepMap := built cyc.

Definition cA : pVariable := var 1 [2].
Definition cB : pVariable := var 2 [1].

(** A resolve call whose dependent variable is a constant with no node. *)
Definition abc_const_resolved : Outcome (DepMap * VariableList) :=
  makeUpdateList abc_map ∅ (only (const 9)).

(** The identifier 1 is used twice. *)
Definition dup : BlockVariables := Block [var 1 []] [Block [var 2 []; var 1 [2]] []].
Definition dup_before : DepMap :=
  match addVariables ∅ [var 1 []; var 2 []] with
  | Returned m => m
  | _ => ∅
  end.

(** A constant that is an independent variable and is read by a
    dependent variable. *)
Definition cyc_const_resolved : Outcome (DepMap * VariableList) :=
  makeUpdateList cyc_map (only (const 7)) (only (var 3 [7])).

(** The scenario with D as a further independent and dependent variable. *)
Definition abcd_resolved : Outcome (DepMap * VariableList) :=
  makeUpdateList abc_map (only vA ∪ only vD) (only vC ∪ only vD).

(** * Verification *)

Section Basics.
Context `{VM : VariableModel}.

Lemma BlockVariables_nested_ind (P : BlockVariables → Prop) :
  (∀ vs chs, Forall P chs → P (Block vs chs)) → ∀ b, P b.
Proof.
  intros H. fix IH 1. intros [vs chs]. apply H.
  induction chs as [|ch chs IHchs]; constructor; [apply IH | exact IHchs].
Qed.

Lemma elem_of_set_iter (s : gset Z) x : x ∈ set_iter s ↔ x ∈ s.
Proof. unfold set_iter. rewrite merge_sort_Permutation. apply elem_of_elements. Qed.

Lemma NoDup_set_iter (s : gset Z) : NoDup (set_iter s).
Proof. unfold set_iter. rewrite merge_sort_Permutation. apply NoDup_elements. Qed.

Lemma list_to_set_set_iter (s : gset Z) : list_to_set (set_iter s) = s.
Proof. apply set_eq. intros x. rewrite elem_of_list_to_set. apply elem_of_set_iter. Qed.

Lemma elem_of_map_iter (m : DepMap) k : k ∈ map_iter m ↔ is_Some (m !! k).
Proof. unfold map_iter. rewrite elem_of_set_iter. apply elem_of_dom. Qed.

Lemma foldl_invariant {A B} (P : A → Prop) (f : A → B → A) (l : list B) (a : A) :
  P a → (∀ a x, x ∈ l → P a → P (f a x)) → P (foldl f a l).
Proof.
  revert a. induction l as [|x l IH]; intros a Ha Hf; simpl; [done|].
  apply IH.
  - apply Hf; [left | done].
  - intros a' y Hy. apply Hf. by right.
Qed.

Lemma node_absent (m : DepMap) k :
  m !! k = None → m !!! k = VarInfo_default.
Proof. intros H. by rewrite lookup_total_alt, H. Qed.

Lemma deps_of_absent (m : DepMap) k : m !! k = None → deps_of m k = ∅.
Proof. intros H. unfold deps_of. by rewrite node_absent. Qed.

Lemma mods_of_absent (m : DepMap) k : m !! k = None → mods_of m k = ∅.
Proof. intros H. unfold mods_of. by rewrite node_absent. Qed.

Lemma var_of_absent (m : DepMap) k : m !! k = None → var_of m k = None.
Proof. intros H. unfold var_of. by rewrite node_absent. Qed.

Lemma deps_of_present (m : DepMap) k x : x ∈ deps_of m k → is_Some (m !! k).
Proof.
  intros H. destruct (m !! k) eqn:E; [eauto|].
  rewrite deps_of_absent in H by done. set_solver.
Qed.

Lemma mods_of_present (m : DepMap) k x : x ∈ mods_of m k → is_Some (m !! k).
Proof.
  intros H. destruct (m !! k) eqn:E; [eauto|].
  rewrite mods_of_absent in H by done. set_solver.
Qed.

Lemma evolves_refl (m : DepMap) : evolves m m.
Proof. by intros k. Qed.

Lemma evolves_trans (m1 m2 m3 : DepMap) : evolves m1 m2 → evolves m2 m3 → evolves m1 m3.
Proof.
  intros H12 H23 k. destruct (H12 k) as (?&?&?&?), (H23 k) as (?&?&?&?).
  repeat split; [auto | congruence..].
Qed.

Lemma evolves_dom (m m' : DepMap) : evolves m m' → dom m ⊆ dom m'.
Proof. intros H k. rewrite !elem_of_dom. apply H. Qed.

Lemma evolves_inverse_edges (m m' : DepMap) :
  evolves m m' → inverse_edges m → inverse_edges m'.
Proof.
  intros He Hw x y. destruct (He x) as (_&_&->&_), (He y) as (_&->&_&_). apply Hw.
Qed.

Lemma evolves_keyed_by_id (m m' : DepMap) :
  evolves m m' → keyed_by_id m → keyed_by_id m'.
Proof. intros He Hk k pv. destruct (He k) as (_&_&_&->). apply Hk. Qed.

Lemma touch_evolves (m : DepMap) id : evolves m (touch m id).
Proof.
  unfold touch. destruct (m !! id) eqn:E; [apply evolves_refl|].
  intros k. destruct (decide (k = id)) as [->|Hne].
  - unfold deps_of, mods_of, var_of.
    rewrite lookup_total_insert_eq, node_absent by done.
    rewrite lookup_insert_eq. eauto.
  - unfold deps_of, mods_of, var_of.
    rewrite lookup_total_insert_ne, lookup_insert_ne by done. eauto.
Qed.

Lemma touch_dom (m : DepMap) id : dom (touch m id) = {[id]} ∪ dom m.
Proof.
  unfold touch. destruct (m !! id) eqn:E.
  - assert (id ∈ dom m) by (apply elem_of_dom; eauto). set_solver.
  - by rewrite dom_insert_L.
Qed.

End Basics.

(** ** Construction of the dependency map *)

Section Construction.
Context `{VM : VariableModel}.

Lemma addVariables_app (m : DepMap) l1 l2 :
  addVariables m (l1 ++ l2) = m' ← addVariables m l1; addVariables m' l2.
Proof.
  revert m. induction l1 as [|pv l1 IH]; intros m; simpl; [done|].
  destruct (addVariable m pv); simpl; auto.
Qed.

Lemma constructMapRecursive_flat vars (m : DepMap) :
  constructMapRecursive vars m = addVariables m (block_variables vars).
Proof.
  revert m. induction vars as [vs chs IH] using BlockVariables_nested_ind.
  intros m. simpl. rewrite addVariables_app.
  destruct (addVariables m vs) as [m1| | |]; simpl; try done.
  clear m. revert m1. induction IH as [|ch chs Hch _ IHchs]; intros m1; [done|].
  rewrite addVariables_app, Hch.
  destruct (addVariables m1 (block_variables ch)); simpl; auto.
Qed.

Lemma addVariable_fresh (m m' : DepMap) pv :
  fresh_nodes m → addVariable m pv = Returned m' → fresh_nodes m'.
Proof.
  unfold addVariable. intros Hm H.
  destruct (isConstant pv); [by inversion H; subst|].
  case_decide; [done|]. inversion H; subst; clear H.
  intros k n. destruct (decide (k = getId pv)) as [->|Hne].
  - rewrite lookup_insert_eq. intros [= <-]. simpl. eauto.
  - rewrite lookup_insert_ne by done. apply Hm.
Qed.

Lemma addVariables_fresh l (m m' : DepMap) :
  fresh_nodes m → addVariables m l = Returned m' → fresh_nodes m'.
Proof.
  revert m. induction l as [|pv l IH]; intros m Hm; simpl.
  - by intros [= <-].
  - destruct (addVariable m pv) as [m1| | |] eqn:E; simpl; try done.
    apply IH. by eapply addVariable_fresh.
Qed.

Lemma insertModifies_fold k l (m : DepMap) :
  let m' := foldl (insertModifies k) m l in
  (∀ x y, y ∈ mods_of m' x ↔ y ∈ mods_of m x ∨ (y = k ∧ x ∈ l)) ∧
  (∀ x, deps_of m' x = deps_of m x) ∧
  (∀ x, var_of m' x = var_of m x) ∧
  (∀ x, is_Some (m' !! x) ↔ is_Some (m !! x) ∨ x ∈ l).
Proof.
  revert m. induction l as [|id l IH]; intros m; simpl.
  - repeat split; try done; set_solver.
  - destruct (IH (insertModifies k m id)) as (Hm & Hd & Hv & Hs).
    assert (Hnode : ∀ x, x ≠ id → insertModifies k m id !!! x = m !!! x).
    { intros x Hx. unfold insertModifies. by rewrite lookup_total_insert_ne. }
    assert (Hid : insertModifies k m id !!! id
                  = set_modifies (m !!! id) ({[k]} ∪ modifies (m !!! id))).
    { unfold insertModifies. rewrite lookup_total_insert_eq, (lookup_total_alt m id). reflexivity. }
    repeat split.
    + rewrite Hm. unfold mods_of. destruct (decide (x = id)) as [->|Hne].
      * rewrite Hid. simpl. set_solver.
      * rewrite Hnode by done. set_solver.
    + intros H. apply Hm. unfold mods_of. destruct (decide (x = id)) as [->|Hne].
      * rewrite Hid. simpl. set_solver.
      * rewrite Hnode by done. set_solver.
    + intros x. rewrite Hd. unfold deps_of. destruct (decide (x = id)) as [->|Hne].
      * by rewrite Hid.
      * by rewrite Hnode.
    + intros x. rewrite Hv. unfold var_of. destruct (decide (x = id)) as [->|Hne].
      * by rewrite Hid.
      * by rewrite Hnode.
    + rewrite Hs. unfold insertModifies. destruct (decide (x = id)) as [->|Hne].
      * rewrite lookup_insert_eq. set_solver.
      * rewrite lookup_insert_ne by done. set_solver.
    + intros H. apply Hs. unfold insertModifies. destruct (decide (x = id)) as [->|Hne].
      * rewrite lookup_insert_eq. eauto.
      * rewrite lookup_insert_ne by done. set_solver.
Qed.

Lemma constructMap_entry_fold ks (m : DepMap) :
  let m' := foldl constructMap_entry m ks in
  (∀ x y, y ∈ mods_of m' x ↔ y ∈ mods_of m x ∨ (y ∈ ks ∧ x ∈ deps_of m y)) ∧
  (∀ x, deps_of m' x = deps_of m x) ∧
  (∀ x, var_of m' x = var_of m x) ∧
  (∀ x, is_Some (m !! x) → is_Some (m' !! x)).
Proof.
  revert m. induction ks as [|k ks IH]; intros m; simpl.
  - repeat split; try done; set_solver.
  - destruct (IH (constructMap_entry m k)) as (Hm & Hd & Hv & Hs).
    assert (Hstep :
      (∀ x y, y ∈ mods_of (constructMap_entry m k) x
              ↔ y ∈ mods_of m x ∨ (y = k ∧ x ∈ deps_of m k)) ∧
      (∀ x, deps_of (constructMap_entry m k) x = deps_of m x) ∧
      (∀ x, var_of (constructMap_entry m k) x = var_of m x) ∧
      (∀ x, is_Some (m !! x) → is_Some (constructMap_entry m k !! x))).
    { unfold constructMap_entry. destruct (m !! k) as [entry|] eqn:E.
      - destruct (insertModifies_fold k (set_iter (dependsOn entry)) m)
          as (Hm' & Hd' & Hv' & Hs').
        repeat split; try done.
        + rewrite Hm'. rewrite elem_of_set_iter. unfold deps_of at 1.
          by rewrite (lookup_total_correct _ _ _ E).
        + intros H. apply Hm'. rewrite elem_of_set_iter. unfold deps_of in H.
          by rewrite (lookup_total_correct _ _ _ E) in H.
        + intros x Hx. apply Hs'. by left.
      - repeat split; try done; [set_solver|].
        intros [H|[-> H]]; [done|]. rewrite deps_of_absent in H by done. set_solver. }
    destruct Hstep as (Hm1 & Hd1 & Hv1 & Hs1).
    repeat split.
    + rewrite Hm, Hm1, Hd1. set_solver.
    + intros H. apply Hm. rewrite Hm1, Hd1. set_solver.
    + intros x. by rewrite Hd, Hd1.
    + intros x. by rewrite Hv, Hv1.
    + intros x Hx. by apply Hs, Hs1.
Qed.

Lemma fresh_nodes_mods_of (m : DepMap) x : fresh_nodes m → mods_of m x = ∅.
Proof.
  intros Hf. destruct (m !! x) as [n|] eqn:E.
  - unfold mods_of. rewrite (lookup_total_correct _ _ _ E). by apply (Hf x n).
  - by apply mods_of_absent.
Qed.

Lemma fresh_nodes_keyed (m : DepMap) : fresh_nodes m → keyed_by_id m.
Proof.
  intros Hf k pv. destruct (m !! k) as [n|] eqn:E.
  - unfold var_of. rewrite (lookup_total_correct _ _ _ E).
    destruct (Hf k n E) as (_ & pv' & -> & <-). by intros [= ->].
  - by rewrite var_of_absent.
Qed.

Lemma DependencyMap_new_invariant vars (m : DepMap) :
  DependencyMap_new vars = Returned m → inverse_edges m ∧ keyed_by_id m.
Proof.
  unfold DependencyMap_new, constructMap. rewrite constructMapRecursive_flat.
  destruct (addVariables ∅ (block_variables vars)) as [m1| | |] eqn:E; simpl; try done.
  intros [= <-].
  assert (Hf : fresh_nodes m1).
  { eapply addVariables_fresh; [|exact E]. intros k n. by rewrite lookup_empty. }
  destruct (constructMap_entry_fold (map_iter m1) m1) as (Hm & Hd & Hv & _).
  split.
  - intros x y. rewrite Hm, Hd, fresh_nodes_mods_of by done.
    rewrite elem_of_map_iter. split.
    + intros H. right. split; [by eapply deps_of_present | done].
    + intros [H|[_ H]]; [set_solver | done].
  - intros k pv. rewrite Hv. by apply fresh_nodes_keyed.
Qed.

Lemma resetCounters_noop (m : DepMap) : resetCounters m = m.
Proof.
  unfold resetCounters. apply (foldl_invariant (λ m', m' = m)); [done|].
  intros m' k _ ->. unfold resetCounters_entry. by destruct (m !! k).
Qed.

End Construction.

(** ** Phase 1: the predecessors of the dependent variables *)

Section Predecessors.
Context `{VM : VariableModel}.

Lemma size_remove (X : gset Z) x : x ∈ X → (size (X ∖ {[x]}) + 1 = size X)%nat.
Proof.
  intros Hx. rewrite size_difference by set_solver. rewrite size_singleton.
  assert (0 < size X)%nat; [|lia].
  destruct (decide (size X = 0%nat)) as [E|]; [|lia].
  apply size_empty_iff in E. set_solver.
Qed.

Lemma required_evolves (m m' : DepMap) B x :
  evolves m m' → required m B x ↔ required m' B x.
Proof.
  intros He. split; induction 1 as [|x y _ IH Hx]; try by constructor.
  - eapply required_dependsOn; [exact IH|]. by destruct (He y) as (_&->&_).
  - eapply required_dependsOn; [exact IH|]. by destruct (He y) as (_&<-&_).
Qed.

Lemma deps_of_allIds (m : DepMap) k : deps_of m k ⊆ allIds m.
Proof.
  intros x Hx. unfold allIds. apply elem_of_union. right.
  destruct (deps_of_present _ _ _ Hx) as [n Hn].
  apply elem_of_union_list. exists (dependsOn n). split.
  - apply list_elem_of_fmap. exists (k, n). split; [done|].
    by apply elem_of_map_to_list.
  - unfold deps_of in Hx. by rewrite (lookup_total_correct _ _ _ Hn) in Hx.
Qed.

Lemma pred_init_fold l (m : DepMap) ws pred :
  ∃ m', foldl pred_init (m, ws, pred) l
          = (m', ws ++ (getId <$> l), list_to_set (getId <$> l) ∪ pred)
        ∧ evolves m m' ∧ dom m' = list_to_set (getId <$> l) ∪ dom m.
Proof.
  revert m ws pred. induction l as [|pv l IH]; intros m ws pred; simpl.
  - exists m. rewrite app_nil_r. split_and!; [f_equal; set_solver | apply evolves_refl | set_solver].
  - destruct (IH (touch m (getId pv)) (ws ++ [getId pv]) ({[getId pv]} ∪ pred))
      as (m' & -> & He & Hd).
    exists m'. split_and!.
    + rewrite <- app_assoc. simpl. f_equal. set_solver.
    + eapply evolves_trans; [apply touch_evolves | exact He].
    + rewrite Hd, touch_dom. set_solver.
Qed.

Lemma pred_visit_fold (U : gset Z) l (m : DepMap) ws pred :
  list_to_set l ⊆ U →
  ∃ m' new, foldl pred_visit (m, ws, pred) l = (m', ws ++ new, list_to_set l ∪ pred)
    ∧ evolves m m'
    ∧ dom m' = (list_to_set l ∖ pred) ∪ dom m
    ∧ (∀ x, x ∈ new → x ∈ l)
    ∧ (∀ x, x ∈ l → x ∈ pred ∨ x ∈ new)
    ∧ (size (U ∖ (list_to_set l ∪ pred)) + length new ≤ size (U ∖ pred))%nat.
Proof.
  revert m ws pred. induction l as [|id l IH]; intros m ws pred HU; simpl.
  - exists m, []. rewrite app_nil_r.
    split_and!; [f_equal; set_solver | apply evolves_refl | set_solver | set_solver
                | set_solver | ].
    simpl. replace (∅ ∪ pred) with pred by set_solver. lia.
  - simpl in HU. case_decide as Hin.
    + destruct (IH m ws pred) as (m' & new & -> & He & Hd & Hn1 & Hn2 & Hsz); [set_solver|].
      exists m', new. split_and!.
      * f_equal. set_solver.
      * done.
      * rewrite Hd. set_solver.
      * intros x Hx. right. by apply Hn1.
      * intros x [->|Hx]%elem_of_cons; [by left | by apply Hn2].
      * replace ({[id]} ∪ list_to_set l ∪ pred) with (list_to_set l ∪ pred) by set_solver.
        done.
    + destruct (IH (touch m id) (ws ++ [id]) ({[id]} ∪ pred))
        as (m' & new & -> & He & Hd & Hn1 & Hn2 & Hsz); [set_solver|].
      exists m', (id :: new). split_and!.
      * rewrite <- app_assoc. simpl. f_equal. set_solver.
      * eapply evolves_trans; [apply touch_evolves | exact He].
      * rewrite Hd, touch_dom. apply set_eq. intros x. set_unfold.
        destruct (decide (x = id)) as [->|]; tauto.
      * intros x [->|Hx]%elem_of_cons; [left | right; by apply Hn1].
      * intros x [->|Hx]%elem_of_cons; [right; left|].
        destruct (Hn2 x Hx) as [H|H]; [|right; by right].
        apply elem_of_union in H as [H|H]; [|by left].
        apply elem_of_singleton in H as ->. right. left.
      * replace ({[id]} ∪ list_to_set l ∪ pred)
          with (list_to_set l ∪ ({[id]} ∪ pred)) by set_solver.
        assert (Hrm := size_remove (U ∖ pred) id).
        replace (U ∖ pred ∖ {[id]}) with (U ∖ ({[id]} ∪ pred)) in Hrm by set_solver.
        simpl. specialize (Hrm ltac:(set_solver)). lia.
Qed.

Lemma pred_loop_spec (m0 : DepMap) B U fuel (m : DepMap) ws pred :
  pred_inv m0 B (m, ws, pred) →
  (∀ k, deps_of m0 k ⊆ U) →
  (size (U ∖ pred) + length ws ≤ fuel)%nat →
  ∃ m' pred', pred_loop fuel (m, ws, pred) = Returned (m', pred')
    ∧ evolves m0 m' ∧ dom m' = pred' ∪ dom m0
    ∧ ∀ x, x ∈ pred' ↔ required m0 B x.
Proof.
  intros Hinv HU. revert m ws pred Hinv.
  induction fuel as [|fuel IH]; intros m ws pred (He & HB & Hreq & Hws & Hdom & Hcl) Hfuel.
  - destruct ws as [|vi ws]; [|simpl in Hfuel; lia].
    exists m, pred. split_and!; try done. intros x. split; [apply Hreq|].
    induction 1 as [|x y _ IHy Hx]; [by apply HB|].
    destruct (Hcl y IHy) as [H|H]; [by apply elem_of_nil in H | by apply H].
  - destruct ws as [|vi ws].
    { exists m, pred. split_and!; try done. intros x. split; [apply Hreq|].
      induction 1 as [|x y _ IHy Hx]; [by apply HB|].
      destruct (Hcl y IHy) as [H|H]; [by apply elem_of_nil in H | by apply H]. }
    simpl.
    assert (Hd : dependsOn (m !!! vi) = deps_of m0 vi) by (by destruct (He vi) as (_&?&_)).
    rewrite Hd.
    destruct (pred_visit_fold U (set_iter (deps_of m0 vi)) m ws pred)
      as (m' & new & -> & He' & Hdom' & Hn1 & Hn2 & Hsz).
    { rewrite list_to_set_set_iter. apply HU. }
    rewrite list_to_set_set_iter in *.
    apply IH.
    + split_and!.
      * by eapply evolves_trans.
      * set_solver.
      * intros x [Hx|Hx]%elem_of_union; [|by apply Hreq].
        eapply required_dependsOn; [|exact Hx]. apply Hreq, Hws. left.
      * intros x [Hx|Hx]%elem_of_app.
        -- apply elem_of_union. right. apply Hws. by right.
        -- apply elem_of_union. left. by apply elem_of_set_iter, Hn1.
      * rewrite Hdom', Hdom. apply set_eq. intros x. set_unfold.
        destruct (decide (x ∈ pred)); tauto.
      * intros y [Hy|Hy]%elem_of_union.
        -- destruct (Hn2 y) as [H|H]; [by apply elem_of_set_iter| |].
           ++ destruct (Hcl y H) as [[->|H']%elem_of_cons|H'].
              ** right. set_solver.
              ** left. apply elem_of_app. by left.
              ** right. set_solver.
           ++ left. apply elem_of_app. by right.
        -- destruct (Hcl y Hy) as [[->|H']%elem_of_cons|H'].
           ++ right. set_solver.
           ++ left. apply elem_of_app. by left.
           ++ right. set_solver.
    + rewrite length_app. simpl in Hfuel. lia.
Qed.

Lemma makeUpdatePredecessors_spec (m : DepMap) (dep : VariableSet) :
  ∃ m1 pred, makeUpdatePredecessors m dep = Returned (m1, pred)
    ∧ evolves m m1 ∧ dom m1 = pred ∪ dom m
    ∧ ∀ x, x ∈ pred ↔ required m (ids_of dep) x.
Proof.
  unfold makeUpdatePredecessors.
  destruct (pred_init_fold (elements dep) m [] ∅) as (m1 & -> & He & Hdom).
  set (B := list_to_set (getId <$> elements dep) : gset Z) in *.
  assert (HB : B = ids_of dep) by done.
  simpl.
  destruct (pred_loop_spec m1 (B ∪ ∅) (allIds m1)
              (size (allIds m1) + length (getId <$> elements dep))%nat
              m1 (getId <$> elements dep) (B ∪ ∅))
    as (m' & pred' & -> & He' & Hdom' & Hreq).
  - split_and!; [apply evolves_refl | done | by constructor | | set_solver | ].
    + intros x Hx. apply elem_of_union. left. by apply elem_of_list_to_set.
    + intros y [Hy|Hy]%elem_of_union; [|set_solver]. left. by apply elem_of_list_to_set in Hy.
  - apply deps_of_allIds.
  - assert (size (allIds m1 ∖ (B ∪ ∅)) ≤ size (allIds m1))%nat
      by (apply subseteq_size; set_solver). lia.
  - exists m', pred'. split_and!; [done | by eapply evolves_trans | | ].
    + assert (HBp : B ⊆ pred').
      { intros x Hx. apply Hreq. constructor. apply elem_of_union. by left. }
      rewrite Hdom', Hdom. apply set_eq. intros x. set_unfold. specialize (HBp x). tauto.
    + intros x. rewrite Hreq, <- HB.
      replace (B ∪ ∅) with B by set_solver. symmetry. by apply required_evolves.
Qed.

End Predecessors.

(** ** Phase 2: the followers of the independent variables *)

Section Followers.
Context `{VM : VariableModel}.

Lemma relevant_ext (m m' : DepMap) A (R R' : Z → Prop) x :
  (∀ k, mods_of m' k = mods_of m k) → (∀ y, R y ↔ R' y) →
  relevant m A R x → relevant m' A R' x.
Proof.
  intros Hm HR. induction 1 as [id HA Hid|x y _ IH Hy HRy].
  - apply relevant_independent; [done | by apply HR].
  - eapply relevant_modifies; [exact IH | by rewrite Hm | by apply HR].
Qed.

Lemma relevant_in (m : DepMap) A (R : Z → Prop) x : relevant m A R x → R x.
Proof. by destruct 1. Qed.

Lemma foll_init_fold pred l ws foll :
  ∃ new, foldl (foll_init pred) (ws, foll) l
           = (ws ++ new, (list_to_set (getId <$> l) ∩ pred) ∪ foll)
    ∧ ∀ x, x ∈ new ↔ x ∈ pred ∧ x ∈ getId <$> l.
Proof.
  revert ws foll. induction l as [|pv l IH]; intros ws foll; simpl.
  - exists []. rewrite app_nil_r. split; [f_equal; set_solver | set_solver].
  - case_decide as Hin.
    + destruct (IH (ws ++ [getId pv]) ({[getId pv]} ∪ foll)) as (new & -> & Hn).
      exists (getId pv :: new). split.
      * rewrite <- app_assoc. simpl. f_equal. set_solver.
      * intros x. rewrite !elem_of_cons, Hn. naive_solver.
    + destruct (IH ws foll) as (new & -> & Hn).
      exists new. split; [f_equal; set_solver|].
      intros x. rewrite elem_of_cons, Hn. naive_solver.
Qed.

Lemma foll_visit_fold pred l ws foll :
  ∃ new, foldl (foll_visit pred) (ws, foll) l
           = (ws ++ new, (list_to_set l ∩ pred) ∪ foll)
    ∧ (∀ x, x ∈ new → x ∈ l ∧ x ∈ pred)
    ∧ (∀ x, x ∈ l → x ∈ pred → x ∈ foll ∨ x ∈ new)
    ∧ (size (pred ∖ ((list_to_set l ∩ pred) ∪ foll)) + length new
       ≤ size (pred ∖ foll))%nat.
Proof.
  revert ws foll. induction l as [|id l IH]; intros ws foll; simpl.
  - exists []. rewrite app_nil_r. split_and!; [f_equal; set_solver | set_solver | set_solver |].
    simpl. replace (∅ ∩ pred ∪ foll) with foll by set_solver. lia.
  - case_decide as Hin.
    + destruct (IH ws foll) as (new & -> & Hn1 & Hn2 & Hsz).
      exists new. split_and!.
      * f_equal. set_solver.
      * intros x Hx. destruct (Hn1 x Hx). split; [by right | done].
      * intros x [->|Hx]%elem_of_cons Hp; [left; tauto | by apply Hn2].
      * replace (({[id]} ∪ list_to_set l) ∩ pred ∪ foll)
          with (list_to_set l ∩ pred ∪ foll) by set_solver.
        done.
    + assert (Hid : id ∉ foll ∧ id ∈ pred).
      { split; [tauto|]. destruct (decide (id ∈ pred)); tauto. }
      destruct Hid as [Hf Hp].
      destruct (IH (ws ++ [id]) ({[id]} ∪ foll)) as (new & -> & Hn1 & Hn2 & Hsz).
      exists (id :: new). split_and!.
      * rewrite <- app_assoc. simpl. f_equal. set_solver.
      * intros x [->|Hx]%elem_of_cons; [split; [left | done]|].
        destruct (Hn1 x Hx). split; [by right | done].
      * intros x [->|Hx]%elem_of_cons Hpx; [right; left|].
        destruct (Hn2 x Hx Hpx) as [H|H]; [|right; by right].
        apply elem_of_union in H as [H|H]; [|by left].
        apply elem_of_singleton in H as ->. right. left.
      * replace (({[id]} ∪ list_to_set l) ∩ pred ∪ foll)
          with (list_to_set l ∩ pred ∪ ({[id]} ∪ foll)) by set_solver.
        assert (Hrm := size_remove (pred ∖ foll) id).
        replace (pred ∖ foll ∖ {[id]}) with (pred ∖ ({[id]} ∪ foll)) in Hrm by set_solver.
        simpl. specialize (Hrm ltac:(set_solver)). lia.
Qed.

Lemma foll_loop_done (m : DepMap) A P foll :
  foll_inv m A P ([], foll) → ∀ x, x ∈ foll ↔ relevant m A (λ y, y ∈ P) x.
Proof.
  intros (HA & Hrel & _ & Hcl) x. split; [apply Hrel|].
  induction 1 as [id Hid HP|x y _ IH Hy HP]; [set_solver|].
  destruct (Hcl x IH) as [H|H]; [by apply elem_of_nil in H | set_solver].
Qed.

Lemma foll_loop_spec (m : DepMap) A P fuel ws foll :
  foll_inv m A P (ws, foll) →
  (size (P ∖ foll) + length ws ≤ fuel)%nat →
  ∃ foll', foll_loop fuel m P (ws, foll) = Returned foll'
    ∧ ∀ x, x ∈ foll' ↔ relevant m A (λ y, y ∈ P) x.
Proof.
  revert ws foll. induction fuel as [|fuel IH]; intros ws foll Hinv Hfuel.
  - destruct ws as [|vi ws]; [|simpl in Hfuel; lia].
    exists foll. split; [done | by apply foll_loop_done].
  - destruct ws as [|vi ws].
    { exists foll. split; [done | by apply foll_loop_done]. }
    destruct Hinv as (HA & Hrel & Hws & Hcl). simpl.
    destruct (foll_visit_fold P (set_iter (modifies (m !!! vi))) ws foll)
      as (new & -> & Hn1 & Hn2 & Hsz).
    rewrite list_to_set_set_iter in *. fold (mods_of m vi) in *.
    apply IH.
    + split_and!.
      * set_solver.
      * intros x [Hx|Hx]%elem_of_union; [|by apply Hrel].
        apply elem_of_intersection in Hx as [Hx HP].
        eapply relevant_modifies; [|exact Hx|exact HP]. apply Hrel, Hws. left.
      * intros x [Hx|Hx]%elem_of_app.
        -- apply elem_of_union. right. apply Hws. by right.
        -- destruct (Hn1 x Hx) as [H1 H2]. apply elem_of_set_iter in H1. set_solver.
      * intros y [Hy|Hy]%elem_of_union.
        -- apply elem_of_intersection in Hy as [Hy HP].
           destruct (Hn2 y) as [H|H]; [by apply elem_of_set_iter | done | |].
           ++ destruct (Hcl y H) as [[->|H']%elem_of_cons|H'].
              ** right. set_solver.
              ** left. apply elem_of_app. by left.
              ** right. set_solver.
           ++ left. apply elem_of_app. by right.
        -- destruct (Hcl y Hy) as [[->|H']%elem_of_cons|H'].
           ++ right. set_solver.
           ++ left. apply elem_of_app. by left.
           ++ right. set_solver.
    + rewrite length_app. simpl in Hfuel. lia.
Qed.

Lemma makeUpdateFollowers_spec (m : DepMap) (indep : VariableSet) (P : gset Z) :
  ∃ deps, makeUpdateFollowers m indep P = Returned deps
    ∧ ∀ x, x ∈ deps ↔ relevant m (ids_of indep) (λ y, y ∈ P) x.
Proof.
  unfold makeUpdateFollowers.
  destruct (foll_init_fold P (elements indep) [] ∅) as (new & -> & Hn).
  simpl.
  apply foll_loop_spec.
  - split_and!.
    + unfold ids_of, set_map. set_solver.
    + intros x [Hx|Hx]%elem_of_union; [|set_solver].
      apply elem_of_intersection in Hx as [Hx HP].
      by apply relevant_independent.
    + intros x Hx. apply Hn in Hx as [HP Hx'].
      apply elem_of_union. left. apply elem_of_intersection. split; [|done].
      by apply elem_of_list_to_set.
    + intros y [Hy|Hy]%elem_of_union; [|set_solver].
      left. apply Hn. apply elem_of_intersection in Hy as [Hy HP].
      split; [done | by apply elem_of_list_to_set in Hy].
  - assert (size (P ∖ (list_to_set (getId <$> elements indep) ∩ P ∪ ∅)) ≤ size P)%nat
      by (apply subseteq_size; set_solver). lia.
Qed.

End Followers.

(** ** Phase 3: the update order *)

Section Order.
Context `{VM : VariableModel}.

Lemma same_edges_refl (m : DepMap) : same_edges m m.
Proof. by split. Qed.

Lemma same_edges_trans (m1 m2 m3 : DepMap) :
  same_edges m1 m2 → same_edges m2 m3 → same_edges m1 m3.
Proof.
  intros [Hd12 H12] [Hd23 H23]. split; [congruence|].
  intros k. destruct (H12 k) as (?&?&?), (H23 k) as (?&?&?).
  split_and!; congruence.
Qed.

Lemma same_edges_evolves (m m' : DepMap) : same_edges m m' → evolves m m'.
Proof.
  intros [Hd H] k. destruct (H k) as (?&?&?). split_and!; try done.
  rewrite <- !elem_of_dom. by rewrite Hd.
Qed.

Lemma alter_counter_same_edges (g : VarInfo → Z) k (m : DepMap) :
  same_edges m (alter (λ vi, set_counter vi (g vi)) k m).
Proof.
  split; [apply dom_alter_L|]. intros j.
  unfold deps_of, mods_of, var_of. rewrite lookup_total_alter.
  case_decide as E; [subst j|done].
  rewrite (lookup_total_alt m k). by destruct (m !! k).
Qed.

Lemma alter_counter_eq (g : VarInfo → Z) k (m : DepMap) :
  is_Some (m !! k) →
  ctr_of (alter (λ vi, set_counter vi (g vi)) k m) k = g (m !!! k).
Proof.
  intros [n Hn]. unfold ctr_of.
  by rewrite lookup_total_alter_eq, (lookup_total_correct _ _ _ Hn), Hn.
Qed.

Lemma alter_counter_ne (g : VarInfo → Z) k j (m : DepMap) :
  k ≠ j → ctr_of (alter (λ vi, set_counter vi (g vi)) k m) j = ctr_of m j.
Proof. intros Hne. unfold ctr_of. by rewrite lookup_total_alter_ne. Qed.

(** *** The counting loop *)

Lemma count_loop (D : gset Z) l c :
  foldl (λ count id, if decide (id ∈ D) then count + 1 else count) c l
  = c + Z.of_nat (length (filter (λ id, id ∈ D) l)).
Proof.
  revert c. induction l as [|id l IH]; intros c; simpl; [lia|].
  rewrite IH, filter_cons. case_decide; simpl; lia.
Qed.

Lemma count_in_size (D s : gset Z) : count_in D s = Z.of_nat (size (s ∩ D)).
Proof.
  unfold count_in. rewrite count_loop, Z.add_0_l. f_equal.
  change (size (s ∩ D)) with (length (elements (s ∩ D))). apply Permutation_length.
  apply NoDup_Permutation.
  - apply NoDup_filter, NoDup_set_iter.
  - apply NoDup_elements.
  - intros x. rewrite list_elem_of_filter, elem_of_set_iter, elem_of_elements. set_solver.
Qed.

Lemma order_init_fold (D : gset Z) l (m : DepMap) ws :
  NoDup l → (∀ k, k ∈ l → is_Some (m !! k)) →
  ∃ m', foldl (order_init D) (m, ws) l = (m', ws ++ l)
    ∧ same_edges m m'
    ∧ (∀ k, k ∈ l → ctr_of m' k = count_in D (deps_of m k))
    ∧ (∀ k, k ∉ l → ctr_of m' k = ctr_of m k).
Proof.
  revert m ws. induction l as [|k l IH]; intros m ws Hnd Hdom; simpl.
  - exists m. rewrite app_nil_r. split_and!; [done | apply same_edges_refl | | done].
    intros k Hk. by apply elem_of_nil in Hk.
  - apply NoDup_cons in Hnd as [Hk Hnd].
    set (m1 := alter (λ vi, set_counter vi (count_in D (dependsOn (m !!! k)))) k m).
    assert (Hse : same_edges m m1)
      by apply (alter_counter_same_edges (λ _, count_in D (dependsOn (m !!! k)))).
    destruct (IH m1 (ws ++ [k]) Hnd) as (m' & -> & Hse' & Hin & Hout).
    { intros j Hj. rewrite <- elem_of_dom. destruct Hse as [-> _].
      rewrite elem_of_dom. apply Hdom. by right. }
    exists m'. split_and!.
    + by rewrite <- app_assoc.
    + by eapply same_edges_trans.
    + intros j [->|Hj]%elem_of_cons.
      * rewrite Hout by done. unfold m1.
        rewrite (alter_counter_eq (λ _, count_in D (dependsOn (m !!! k)))); [done|].
        apply Hdom. left.
      * rewrite Hin by done. by destruct Hse as [_ Hse]; destruct (Hse j) as (->&_).
    + intros j Hj. apply not_elem_of_cons in Hj as [Hne Hj].
      rewrite Hout by done. unfold m1.
      by rewrite (alter_counter_ne (λ _, count_in D (dependsOn (m !!! k)))).
Qed.

(** *** The scan for a counter that is zero *)

Lemma find_zero_Some (m : DepMap) ws k ws' :
  find_zero m ws = Some (k, ws') →
  ∃ l1 l2, ws = l1 ++ k :: l2 ∧ ws' = l1 ++ l2 ∧ ctr_of m k = 0.
Proof.
  revert ws'. induction ws as [|x ws IH]; intros ws'; simpl; [done|].
  case_decide as Hx.
  - intros [= <- <-]. by exists [], ws.
  - destruct (find_zero m ws) as [[y r]|]; simpl; [|done].
    intros [= -> <-]. destruct (IH r eq_refl) as (l1 & l2 & -> & -> & Hk).
    by exists (x :: l1), l2.
Qed.

Lemma find_zero_None (m : DepMap) ws :
  find_zero m ws = None → ∀ x, x ∈ ws → ctr_of m x ≠ 0.
Proof.
  induction ws as [|y ws IH]; simpl; [by intros _ x Hx; apply elem_of_nil in Hx|].
  case_decide as Hy; [done|].
  destruct (find_zero m ws) as [[z r]|]; simpl; [done|].
  intros _ x [->|Hx]%elem_of_cons; [done | by apply IH].
Qed.

(** *** The decrement loop *)

Lemma order_dec_failed (D : gset Z) l (o : Outcome DepMap) :
  match o with Returned _ => False | _ => True end →
  foldl (order_dec D) o l = o.
Proof.
  intros Ho. induction l as [|id l IH]; simpl; [done|].
  destruct o; try done; simpl; apply IH.
Qed.

Lemma order_dec_Returned (D : gset Z) (m : DepMap) id :
  order_dec D (Returned m) id =
    if decide (id ∈ D) then
      if decide (0 ≤ ctr_of (alter (λ vi, set_counter vi (counter vi - 1)) id m) id)
      then Returned (alter (λ vi, set_counter vi (counter vi - 1)) id m)
      else AssertFailed
    else Returned m.
Proof. reflexivity. Qed.

Lemma order_dec_fold_edges (D : gset Z) l (m m' : DepMap) :
  foldl (order_dec D) (Returned m) l = Returned m' → same_edges m m'.
Proof.
  revert m. induction l as [|id l IH]; intros m; cbn [foldl].
  - intros [= <-]. apply same_edges_refl.
  - rewrite order_dec_Returned. destruct (decide (id ∈ D)); [|apply IH].
    destruct (decide (0 ≤ _)).
    + intros H. eapply same_edges_trans; [|by apply IH].
      apply (alter_counter_same_edges (λ vi, counter vi - 1)).
    + by rewrite (order_dec_failed D l AssertFailed I).
Qed.

Lemma order_dec_fold_outcome (D : gset Z) l (m : DepMap) :
  match foldl (order_dec D) (Returned m) l with
  | Returned _ | AssertFailed => True
  | Threw _ | OutOfFuel => False
  end.
Proof.
  revert m. induction l as [|id l IH]; intros m; cbn [foldl]; [done|].
  rewrite order_dec_Returned. destruct (decide (id ∈ D)); [|apply IH].
  destruct (decide (0 ≤ _)); [apply IH|].
  by rewrite (order_dec_failed D l AssertFailed I).
Qed.

Lemma order_dec_fold (D : gset Z) l (m : DepMap) :
  NoDup l →
  (∀ id, id ∈ l → id ∈ D → is_Some (m !! id) ∧ 1 ≤ ctr_of m id) →
  ∃ m', foldl (order_dec D) (Returned m) l = Returned m'
    ∧ ∀ k, ctr_of m' k = if decide (k ∈ l ∧ k ∈ D) then ctr_of m k - 1 else ctr_of m k.
Proof.
  revert m. induction l as [|id l IH]; intros m Hnd Hpre.
  - exists m. split; [done|]. intros k. rewrite decide_False; [done|].
    intros [H _]. by apply elem_of_nil in H.
  - apply NoDup_cons in Hnd as [Hid Hnd]. cbn [foldl]. rewrite order_dec_Returned.
    destruct (decide (id ∈ D)) as [HD|HD].
    + destruct (Hpre id ltac:(left) HD) as [Hs Hc].
      set (m1 := alter (λ vi, set_counter vi (counter vi - 1)) id m).
      assert (Hc1 : ctr_of m1 id = ctr_of m id - 1)
        by apply (alter_counter_eq (λ vi, counter vi - 1)), Hs.
      rewrite decide_True by lia.
      destruct (IH m1 Hnd) as (m' & -> & Hctr).
      { intros j Hj HjD. destruct (Hpre j ltac:(by right) HjD) as [Hsj Hcj].
        assert (id ≠ j) by (intros ->; done). split.
        - unfold m1. by rewrite lookup_alter_ne.
        - unfold m1. by rewrite (alter_counter_ne (λ vi, counter vi - 1)). }
      exists m'. split; [done|]. intros k. rewrite Hctr.
      destruct (decide (k = id)) as [->|Hne].
      * rewrite decide_False by tauto. rewrite decide_True; [done|]. split; [left | done].
      * unfold m1. rewrite (alter_counter_ne (λ vi, counter vi - 1)) by done.
        destruct (decide (k ∈ l ∧ k ∈ D)) as [[H1 H2]|H].
        -- rewrite decide_True; [done|]. split; [by right | done].
        -- rewrite decide_False; [done|]. intros [[->|H1]%elem_of_cons H2]; tauto.
    + destruct (IH m Hnd) as (m' & -> & Hctr).
      { intros j Hj. apply Hpre. by right. }
      exists m'. split; [done|]. intros k. rewrite Hctr.
      destruct (decide (k ∈ l ∧ k ∈ D)) as [[H1 H2]|H].
      * rewrite decide_True; [done|]. split; [by right | done].
      * rewrite decide_False; [done|]. intros [[->|H1]%elem_of_cons H2]; tauto.
Qed.

(** *** The main loop, for any dependency map *)

Lemma order_loop_outcome (D : gset Z) fuel (m : DepMap) ws out :
  (length ws ≤ fuel)%nat →
  match order_loop fuel D m ws out with
  | Returned (m', out') =>
      same_edges m m' ∧ ∃ ids, ids ≡ₚ ws ∧ out' = out ++ (var_of m <$> ids)
  | AssertFailed => True
  | Threw _ | OutOfFuel => False
  end.
Proof.
  revert m ws out. induction fuel as [|fuel IH]; intros m ws out Hfuel.
  - destruct ws; [|simpl in Hfuel; lia]. simpl.
    split; [apply same_edges_refl|]. exists []. by rewrite app_nil_r.
  - destruct ws as [|w ws].
    { simpl. split; [apply same_edges_refl|]. exists []. by rewrite app_nil_r. }
    cbn [order_loop].
    destruct (find_zero m (w :: ws)) as [[k ws']|] eqn:Hfz; [|done].
    destruct (find_zero_Some _ _ _ _ Hfz) as (l1 & l2 & Hws & -> & Hk).
    destruct (foldl (order_dec D) (Returned m) (set_iter (modifies (m !!! k))))
      as [m1| | |] eqn:Hdec; simpl.
    + pose proof (order_dec_fold_edges _ _ _ _ Hdec) as Hse.
      specialize (IH m1 (l1 ++ l2) (out ++ [v (m !!! k)])).
      destruct (order_loop fuel D m1 (l1 ++ l2) (out ++ [v (m !!! k)]))
        as [[m' out']| | |]; try done.
      * destruct IH as (Hse' & ids & Hperm & ->).
        { assert (length (w :: ws) = length (l1 ++ k :: l2)) as E by (by rewrite Hws).
          rewrite length_app in *. simpl in *. lia. }
        split; [by eapply same_edges_trans|].
        exists (k :: ids). split.
        -- rewrite Hws, Hperm. apply Permutation_middle.
        -- assert (var_of m1 <$> ids = var_of m <$> ids) as ->.
           { apply list_fmap_ext. intros _ x _.
             destruct Hse as [_ Hse]. by destruct (Hse x) as (_&_&?). }
           by rewrite <- app_assoc.
      * apply IH.
        assert (length (w :: ws) = length (l1 ++ k :: l2)) as E by (by rewrite Hws).
        rewrite length_app in *. simpl in *. lia.
      * apply IH.
        assert (length (w :: ws) = length (l1 ++ k :: l2)) as E by (by rewrite Hws).
        rewrite length_app in *. simpl in *. lia.
    + by pose proof (order_dec_fold_outcome D (set_iter (modifies (m !!! k))) m) as H;
        rewrite Hdec in H.
    + done.
    + by pose proof (order_dec_fold_outcome D (set_iter (modifies (m !!! k))) m) as H;
        rewrite Hdec in H.
Qed.

End Order.

(** *** The main loop on a map whose [modifies] inverts [dependsOn] *)

Section OrderInvariant.
Context `{VM : VariableModel}.
Variables (m0 : DepMap) (D : gset Z).
Hypothesis Hwf : inverse_edges m0.
Hypothesis HD : D ⊆ dom m0.

Lemma size_elem_of_pos (X : gset Z) x : x ∈ X → (1 ≤ size X)%nat.
Proof. intros Hx. pose proof (size_remove X x Hx). lia. Qed.

Lemma order_step (m : DepMap) done ws k ws' :
  order_inv m0 D m done ws → find_zero m ws = Some (k, ws') →
  k ∈ ws ∧ (∀ x, x ∈ deps_of m0 k → x ∉ ws) ∧
  list_to_set ws' = (list_to_set ws ∖ {[k]} : gset Z) ∧
  length ws = S (length ws') ∧
  ∃ m', foldl (order_dec D) (Returned m) (set_iter (modifies (m !!! k))) = Returned m'
        ∧ order_inv m0 D m' (done ++ [k]) ws'.
Proof.
  intros (Hse & Hnd & Hset & Hctr & Hprec) Hfz.
  destruct (find_zero_Some _ _ _ _ Hfz) as (l1 & l2 & -> & -> & Hk).
  assert (Hkws : k ∈ l1 ++ k :: l2) by (apply elem_of_app; right; left).
  assert (Hnone : ∀ x, x ∈ deps_of m0 k → x ∉ l1 ++ k :: l2).
  { intros x Hx Hin. specialize (Hctr k Hkws). rewrite Hk in Hctr.
    assert (1 ≤ size (deps_of m0 k ∩ list_to_set (l1 ++ k :: l2)))%nat; [|lia].
    apply (size_elem_of_pos _ x). apply elem_of_intersection. split; [done|].
    by apply elem_of_list_to_set. }
  assert (Hperm : (done ++ [k]) ++ l1 ++ l2 ≡ₚ done ++ l1 ++ k :: l2).
  { rewrite <- app_assoc. apply Permutation_app_head. simpl. apply Permutation_middle. }
  pose proof Hnd as Hnd'.
  apply NoDup_app in Hnd' as (Hnd1 & Hdisj & Hnd2).
  pose proof Hnd2 as Hnd2'.
  apply NoDup_app in Hnd2' as (_ & Hk1 & Hk2). apply NoDup_cons in Hk2 as [Hk2 _].
  assert (Hk1' : k ∉ l1) by (intros H; apply (Hk1 k H); left).
  assert (Hset' : list_to_set (l1 ++ l2) = (list_to_set (l1 ++ k :: l2) ∖ {[k]} : gset Z)).
  { apply set_eq. intros x. rewrite elem_of_difference, !elem_of_list_to_set,
      !elem_of_app, elem_of_cons, elem_of_singleton.
    split; [|tauto]. intros [H|H]; (split; [tauto|]); intros ->; tauto. }
  assert (Hmods : modifies (m !!! k) = mods_of m0 k).
  { destruct Hse as [_ Hse]. by destruct (Hse k) as (_&?&_). }
  split_and!; try done.
  { rewrite !length_app. simpl. lia. }
  rewrite Hmods.
  destruct (order_dec_fold D (set_iter (mods_of m0 k)) m) as (m' & Hdec & Hctr').
  { apply NoDup_set_iter. }
  { intros id Hid HidD. apply elem_of_set_iter in Hid. apply Hwf in Hid. split.
    - apply elem_of_dom. destruct Hse as [-> _]. by apply HD.
    - rewrite <- Hset in HidD. apply elem_of_list_to_set, elem_of_app in HidD as [Hd|Hw].
      + exfalso. apply list_elem_of_lookup_1 in Hd as [j Hj].
        destruct (Hprec j id Hj k Hid) as (i & _ & Hi).
        { rewrite <- Hset. apply elem_of_list_to_set, elem_of_app. by right. }
        apply list_elem_of_lookup_2 in Hi. by apply (Hdisj k).
      + rewrite (Hctr id Hw).
        assert (1 ≤ size (deps_of m0 id ∩ list_to_set (l1 ++ k :: l2)))%nat; [|lia].
        apply (size_elem_of_pos _ k). apply elem_of_intersection. split; [done|].
        by apply elem_of_list_to_set. }
  exists m'. split; [done|]. split_and!.
  - eapply same_edges_trans; [exact Hse|]. by eapply order_dec_fold_edges.
  - by rewrite Hperm.
  - by rewrite Hperm.
  - intros y Hy. rewrite Hctr'.
    assert (Hyw : y ∈ l1 ++ k :: l2).
    { apply elem_of_app in Hy as [Hy|Hy]; apply elem_of_app; [by left | right; by right]. }
    assert (HyD : y ∈ D).
    { rewrite <- Hset. apply elem_of_list_to_set, elem_of_app. by right. }
    rewrite (Hctr y Hyw), Hset'.
    destruct (decide (k ∈ deps_of m0 y)) as [Hdep|Hdep].
    + rewrite decide_True; [|split; [by apply elem_of_set_iter, Hwf | done]].
      assert (Hrm := size_remove (deps_of m0 y ∩ list_to_set (l1 ++ k :: l2)) k).
      replace (deps_of m0 y ∩ list_to_set (l1 ++ k :: l2) ∖ {[k]})
        with (deps_of m0 y ∩ (list_to_set (l1 ++ k :: l2) ∖ {[k]})) in Hrm.
      2:{ apply set_eq. intros x. set_unfold. tauto. }
      specialize (Hrm ltac:(apply elem_of_intersection; split;
                            [done | by apply elem_of_list_to_set])).
      lia.
    + rewrite decide_False; [|by intros [H%elem_of_set_iter%Hwf _]].
      do 2 f_equal. apply set_eq. intros x. set_unfold.
      split; [|tauto]. intros [H1 H2]. split_and!; try done. by intros ->.
  - intros j y Hj x Hx HxD. apply lookup_snoc_Some in Hj as [[Hlt Hj]|[-> <-]].
    + destruct (Hprec j y Hj x Hx HxD) as (i & Hi & Hix).
      exists i. split; [done | by apply lookup_app_l_Some].
    + rewrite <- Hset in HxD. apply elem_of_list_to_set, elem_of_app in HxD as [Hd|Hw].
      * apply list_elem_of_lookup_1 in Hd as [i Hi]. exists i.
        split; [by eapply lookup_lt_Some | by apply lookup_app_l_Some].
      * by destruct (Hnone x Hx).
Qed.

(** The loop either returns with everything moved to the list in a valid
    order, or stops at the assertion [nextEval != 0]. *)
Lemma order_loop_inv fuel (m : DepMap) done ws out :
  order_inv m0 D m done ws → (length ws ≤ fuel)%nat →
  match order_loop fuel D m ws out with
  | Returned (m', out') =>
      ∃ rest, order_inv m0 D m' (done ++ rest) [] ∧ out' = out ++ (var_of m0 <$> rest)
  | AssertFailed => True
  | Threw _ | OutOfFuel => False
  end.
Proof.
  revert m done ws out. induction fuel as [|fuel IH]; intros m done ws out Hinv Hfuel.
  - destruct ws; [|simpl in Hfuel; lia]. simpl. exists []. by rewrite !app_nil_r.
  - destruct ws as [|w ws].
    { simpl. exists []. by rewrite !app_nil_r. }
    cbn [order_loop].
    destruct (find_zero m (w :: ws)) as [[k ws']|] eqn:Hfz; [|done].
    destruct (order_step m done (w :: ws) k ws' Hinv Hfz)
      as (_ & _ & _ & Hlen & m1 & -> & Hinv1).
    simpl.
    assert (Hv : v (m !!! k) = var_of m0 k).
    { destruct Hinv as ([_ Hse] & _). by destruct (Hse k) as (_&_&?). }
    specialize (IH m1 (done ++ [k]) ws' (out ++ [v (m !!! k)]) Hinv1 ltac:(simpl in *; lia)).
    destruct (order_loop fuel D m1 ws' (out ++ [v (m !!! k)])) as [[m' out']| | |];
      try done.
    destruct IH as (rest & Hinv' & ->). exists (k :: rest). split.
    + by rewrite <- app_assoc in Hinv'.
    + rewrite <- app_assoc, Hv. done.
Qed.

(** A set of working-set nodes each of which depends on a member of the
    set is never emptied: the loop stops at the assertion. *)
Lemma order_loop_cycle (C : gset Z) fuel (m : DepMap) done ws out :
  order_inv m0 D m done ws → (length ws ≤ fuel)%nat →
  C ≠ ∅ → C ⊆ list_to_set ws →
  (∀ c, c ∈ C → ∃ c', c' ∈ C ∧ c' ∈ deps_of m0 c) →
  order_loop fuel D m ws out = AssertFailed.
Proof.
  intros Hinv Hfuel HC Hsub Hcyc. revert m done ws out Hinv Hfuel Hsub.
  induction fuel as [|fuel IH]; intros m done ws out Hinv Hfuel Hsub.
  - destruct ws; [|simpl in Hfuel; lia]. exfalso. apply HC. set_solver.
  - destruct ws as [|w ws]; [exfalso; apply HC; set_solver|].
    cbn [order_loop].
    destruct (find_zero m (w :: ws)) as [[k ws']|] eqn:Hfz; [|done].
    destruct (order_step m done (w :: ws) k ws' Hinv Hfz)
      as (Hk & Hnone & Hset & Hlen & m1 & -> & Hinv1).
    simpl. apply (IH m1 (done ++ [k])); [done | simpl in *; lia |].
    rewrite Hset. intros c Hc. apply elem_of_difference. split; [by apply Hsub|].
    intros ->%elem_of_singleton. destruct (Hcyc k Hc) as (c' & Hc' & Hdep).
    apply (Hnone c' Hdep). specialize (Hsub c' Hc'). by apply elem_of_list_to_set in Hsub.
Qed.

End OrderInvariant.

(** ** makeUpdateOrder and makeUpdateList as a whole *)

Section Resolve.
Context `{VM : VariableModel}.

Lemma makeUpdateOrder_init indep (m : DepMap) (D : gset Z) :
  D ⊆ dom m →
  ∃ m2, makeUpdateOrder indep m D = order_loop (length (set_iter D)) D m2 (set_iter D) []
    ∧ same_edges m m2
    ∧ (∀ k, k ∈ D → ctr_of m2 k = Z.of_nat (size (deps_of m k ∩ D)))
    ∧ (∀ k, k ∉ D → ctr_of m2 k = ctr_of m k).
Proof.
  intros HD. unfold makeUpdateOrder.
  destruct (order_init_fold D (set_iter D) m []) as (m2 & -> & Hse & Hin & Hout).
  { apply NoDup_set_iter. }
  { intros k Hk. apply elem_of_dom, HD. by apply elem_of_set_iter. }
  exists m2. simpl. split_and!; try done.
  - intros k Hk. rewrite Hin by (by apply elem_of_set_iter). apply count_in_size.
  - intros k Hk. apply Hout. by rewrite elem_of_set_iter.
Qed.

Lemma makeUpdateOrder_outcome indep (m : DepMap) (D : gset Z) :
  D ⊆ dom m →
  match makeUpdateOrder indep m D with
  | Returned (m', out) =>
      same_edges m m' ∧ ∃ ids, ids ≡ₚ set_iter D ∧ out = var_of m <$> ids
  | AssertFailed => True
  | Threw _ | OutOfFuel => False
  end.
Proof.
  intros HD. destruct (makeUpdateOrder_init indep m D HD) as (m2 & -> & Hse & _).
  pose proof (order_loop_outcome D (length (set_iter D)) m2 (set_iter D) []
                ltac:(done)) as H.
  destruct (order_loop _ D m2 (set_iter D) []) as [[m' out]| | |]; try done.
  destruct H as (Hse' & ids & Hperm & ->). split; [by eapply same_edges_trans|].
  exists ids. split; [done|]. simpl. apply list_fmap_ext. intros _ x _.
  destruct Hse as [_ Hse]. by destruct (Hse x) as (_&_&?).
Qed.

Lemma makeUpdateOrder_start indep (m : DepMap) (D : gset Z) :
  D ⊆ dom m →
  ∃ m2, makeUpdateOrder indep m D = order_loop (length (set_iter D)) D m2 (set_iter D) []
    ∧ order_inv m D m2 [] (set_iter D).
Proof.
  intros HD. destruct (makeUpdateOrder_init indep m D HD) as (m2 & Heq & Hse & Hin & _).
  exists m2. split; [done|]. split_and!.
  - done.
  - apply NoDup_set_iter.
  - apply list_to_set_set_iter.
  - intros y Hy. rewrite list_to_set_set_iter. apply Hin. by apply elem_of_set_iter.
  - intros j y Hj. by rewrite lookup_nil in Hj.
Qed.

Lemma makeUpdateOrder_ordered indep (m : DepMap) (D : gset Z) :
  inverse_edges m → D ⊆ dom m →
  match makeUpdateOrder indep m D with
  | Returned (m', out) =>
      ∃ ids, out = var_of m <$> ids ∧ NoDup ids ∧ list_to_set ids = D ∧ precede m D ids
  | AssertFailed => True
  | Threw _ | OutOfFuel => False
  end.
Proof.
  intros Hwf HD. destruct (makeUpdateOrder_start indep m D HD) as (m2 & -> & Hinv).
  pose proof (order_loop_inv m D Hwf HD (length (set_iter D)) m2 [] (set_iter D) []
                Hinv ltac:(done)) as H.
  destruct (order_loop _ D m2 (set_iter D) []) as [[m' out]| | |]; try done.
  destruct H as (rest & (_ & Hnd & Hset & _ & Hprec) & ->).
  rewrite app_nil_r in *. simpl in *. by exists rest.
Qed.

Lemma makeUpdateOrder_cycle indep (m : DepMap) (D C : gset Z) :
  inverse_edges m → D ⊆ dom m → C ≠ ∅ → C ⊆ D →
  (∀ c, c ∈ C → ∃ c', c' ∈ C ∧ c' ∈ deps_of m c) →
  makeUpdateOrder indep m D = AssertFailed.
Proof.
  intros Hwf HD HC Hsub Hcyc.
  destruct (makeUpdateOrder_start indep m D HD) as (m2 & -> & Hinv).
  apply (order_loop_cycle m D Hwf HD C _ m2 [] (set_iter D) []); try done.
  by rewrite list_to_set_set_iter.
Qed.

Lemma makeUpdateList_phases (m : DepMap) (indep dep : VariableSet) :
  ∃ m1 P D,
    makeUpdatePredecessors m dep = Returned (m1, P) ∧
    makeUpdateFollowers m1 indep P = Returned D ∧
    makeUpdateList m indep dep = makeUpdateOrder indep m1 D ∧
    evolves m m1 ∧ dom m1 = P ∪ dom m ∧
    (∀ x, x ∈ P ↔ required m (ids_of dep) x) ∧
    (∀ x, x ∈ D ↔ in_subgraph m indep dep x) ∧
    D ⊆ dom m1.
Proof.
  destruct (makeUpdatePredecessors_spec m dep) as (m1 & P & Hp & He & Hdom & HP).
  destruct (makeUpdateFollowers_spec m1 indep P) as (D & Hf & HDrel).
  exists m1, P, D. split_and!; try done.
  - unfold makeUpdateList. rewrite Hp. simpl. by rewrite Hf.
  - intros x. rewrite HDrel. unfold in_subgraph.
    split; apply relevant_ext; try (intros k; by destruct (He k) as (_&_&?&_));
      intros y; by rewrite HP.
  - intros x Hx. apply HDrel, relevant_in in Hx. rewrite Hdom. set_solver.
Qed.

Lemma makeUpdateList_evolves (m : DepMap) indep dep m' out :
  makeUpdateList m indep dep = Returned (m', out) → evolves m m'.
Proof.
  destruct (makeUpdateList_phases m indep dep)
    as (m1 & P & D & _ & _ & -> & He & _ & _ & _ & HD).
  intros H. pose proof (makeUpdateOrder_outcome indep m1 D HD) as Ho.
  rewrite H in Ho. destruct Ho as [Hse _].
  eapply evolves_trans; [exact He | by apply same_edges_evolves].
Qed.

(** The three loops end for every input: the call returns or stops at an
    assertion. *)
Lemma makeUpdateList_terminates (m : DepMap) indep dep :
  match makeUpdateList m indep dep with
  | Returned _ | AssertFailed => True
  | Threw _ | OutOfFuel => False
  end.
Proof.
  destruct (makeUpdateList_phases m indep dep)
    as (m1 & P & D & _ & _ & -> & _ & _ & _ & _ & HD).
  pose proof (makeUpdateOrder_outcome indep m1 D HD) as Ho.
  by destruct (makeUpdateOrder indep m1 D) as [[m' out]| | |].
Qed.

Lemma reachable_invariant (m : DepMap) :
  reachable m → inverse_edges m ∧ keyed_by_id m.
Proof.
  induction 1 as [vars m H|m _ IH|m indep dep m' out _ [IH1 IH2] H].
  - by eapply DependencyMap_new_invariant.
  - by rewrite resetCounters_noop.
  - apply makeUpdateList_evolves in H.
    split; [by eapply evolves_inverse_edges | by eapply evolves_keyed_by_id].
Qed.

Lemma chain_next (m : DepMap) first l :
  chain m first l → ∀ c, c ∈ l → ∃ c', (c' = first ∨ c' ∈ l) ∧ c' ∈ deps_of m c.
Proof.
  induction l as [|x l IH]; [done|]. destruct l as [|y l].
  - simpl. intros H c ->%list_elem_of_singleton. exists first. by split; [left|].
  - intros [Hy Hrest] c [->|Hc]%elem_of_cons.
    + exists y. split; [right; right; left | done].
    + destruct (IH Hrest c Hc) as (c' & [->|Hc'] & Hdep).
      * exists first. by split; [left|].
      * exists c'. split; [right; by right | done].
Qed.

Lemma is_cycle_next (m : DepMap) l :
  is_cycle m l → ∀ c, c ∈ l → ∃ c', c' ∈ l ∧ c' ∈ deps_of m c.
Proof.
  destruct l as [|x l]; [done|]. intros H c Hc.
  destruct (chain_next m x (x :: l) H c Hc) as (c' & [->|Hc'] & Hdep).
  - exists x. split; [left | done].
  - by exists c'.
Qed.

End Resolve.

(** ** The counter of a node after a decrement *)

Section Decrement.
Context `{VM : VariableModel}.

Lemma alter_dec_ctr (m : DepMap) id k :
  ctr_of (alter (λ vi, set_counter vi (counter vi - 1)) id m) k
  = if decide (k = id ∧ id ∈ dom m) then ctr_of m k - 1 else ctr_of m k.
Proof.
  destruct (decide (k = id)) as [->|Hne].
  - destruct (m !! id) as [n|] eqn:E.
    + rewrite decide_True by (split; [done | apply elem_of_dom; eauto]).
      rewrite (alter_counter_eq (λ vi, counter vi - 1)) by eauto. done.
    + rewrite decide_False by (intros [_ H%elem_of_dom]; rewrite E in H; by destruct H).
      unfold ctr_of. by rewrite lookup_total_alter_eq, E, node_absent.
  - rewrite decide_False by tauto.
    by apply (alter_counter_ne (λ vi, counter vi - 1)).
Qed.

End Decrement.

(** * The claims *)

Section Claims.
Context `{VM : VariableModel}.

(** C1. Topological validity.  Whenever [makeUpdateList] returns a list on
    a dependency map built by the constructor, the list is the sequence of
    the variables of distinct nodes, and every identifier in the [dependsOn]
    set of a node of the list that itself has a node in the list stands
    strictly earlier; in terms of the variables of the list: if the
    identifier of the variable at position [i] is in the [dependsOn] set of
    the variable at position [j], then [i < j]. *)
Theorem makeUpdateList_topological (m : DepMap) indep dep m' out :
  reachable m →
  makeUpdateList m indep dep = Returned (m', out) →
  (∃ ids, out = var_of m' <$> ids ∧ NoDup ids ∧
     ∀ i j x y, ids !! i = Some x → ids !! j = Some y →
       x ∈ deps_of m' y → (i < j)%nat) ∧
  (∀ i j pv pw, out !! i = Some (Some pv) → out !! j = Some (Some pw) →
     getId pv ∈ deps_of m' (getId pw) → (i < j)%nat).
Proof.
  intros Hreach Hret.
  destruct (reachable_invariant m Hreach) as [Hwf Hkey].
  pose proof (makeUpdateList_evolves _ _ _ _ _ Hret) as Hev.
  destruct (makeUpdateList_phases m indep dep)
    as (m1 & P & D & _ & _ & Heq & He & _ & _ & _ & HD).
  rewrite Heq in Hret.
  pose proof (makeUpdateOrder_outcome indep m1 D HD) as Hout.
  pose proof (makeUpdateOrder_ordered indep m1 D
                (evolves_inverse_edges _ _ He Hwf) HD) as Hord.
  rewrite Hret in Hout, Hord.
  destruct Hout as [[_ Hse] _]. destruct Hord as (ids & -> & Hnd & Hset & Hprec).
  assert (Hvar : var_of m1 <$> ids = var_of m' <$> ids).
  { apply list_fmap_ext. intros _ x _. by destruct (Hse x) as (_&_&?). }
  assert (Hfirst : ∀ i j x y, ids !! i = Some x → ids !! j = Some y →
                     x ∈ deps_of m' y → (i < j)%nat).
  { intros i j x y Hi Hj Hx. destruct (Hse y) as (Hdy&_). rewrite Hdy in Hx.
    destruct (Hprec j y Hj x Hx) as (i' & Hlt & Hi').
    - rewrite <- Hset. apply elem_of_list_to_set. by eapply list_elem_of_lookup_2.
    - by rewrite (NoDup_lookup _ _ _ _ Hnd Hi Hi'). }
  split.
  - exists ids. by rewrite Hvar.
  - intros i j pv pw Hi Hj Hdep. rewrite Hvar in Hi, Hj.
    rewrite list_lookup_fmap in Hi, Hj.
    destruct (ids !! i) as [x|] eqn:Ex; [|done].
    destruct (ids !! j) as [y|] eqn:Ey; [|done].
    simpl in Hi, Hj. injection Hi as Hi. injection Hj as Hj.
    pose proof (evolves_keyed_by_id _ _ Hev Hkey) as Hkey'.
    apply Hkey' in Hi, Hj. subst x y. by apply (Hfirst i j (getId pv) (getId pw)).
Qed.

(** C2. Completeness and minimality.  Whenever [makeUpdateList] returns a
    list, the list is the sequence of the variables of distinct nodes, and
    a node is in it exactly when it is in the backward closure of the
    dependents along [dependsOn] and reachable from an independent along
    [modifies] inside that closure; so a variable is in the list exactly
    when it is the variable of such a node. *)
Theorem makeUpdateList_complete (m : DepMap) indep dep m' out :
  makeUpdateList m indep dep = Returned (m', out) →
  (∃ ids, out = var_of m' <$> ids ∧ NoDup ids ∧
     ∀ id, id ∈ ids ↔ in_subgraph m indep dep id) ∧
  (∀ pv, Some pv ∈ out ↔
     ∃ id, in_subgraph m indep dep id ∧ var_of m' id = Some pv).
Proof.
  intros Hret.
  destruct (makeUpdateList_phases m indep dep)
    as (m1 & P & D & _ & _ & Heq & He & _ & _ & HDrel & HD).
  rewrite Heq in Hret.
  pose proof (makeUpdateOrder_outcome indep m1 D HD) as Hout.
  rewrite Hret in Hout. destruct Hout as ([_ Hse] & ids & Hperm & ->).
  assert (Hvar : var_of m1 <$> ids = var_of m' <$> ids).
  { apply list_fmap_ext. intros _ x _. by destruct (Hse x) as (_&_&?). }
  assert (Hin : ∀ id, id ∈ ids ↔ in_subgraph m indep dep id).
  { intros id. by rewrite Hperm, elem_of_set_iter. }
  split.
  - exists ids. split_and!; [done | | done]. rewrite Hperm. apply NoDup_set_iter.
  - intros pv. rewrite Hvar, list_elem_of_fmap. split.
    + intros (id & Hid & Hx). exists id. by split; [apply Hin|].
    + intros (id & Hid & Hx). exists id. by split; [|apply Hin].
Qed.

(** C3 (as the code has it).  When the nodes of a dependency cycle are all
    in the relevant subgraph, [makeUpdateList] on a dependency map built by
    the constructor stops at its assertion [nextEval != 0]: it does not run
    on, it returns no list, and it throws nothing to the caller. *)
Theorem makeUpdateList_cycle_asserts (m : DepMap) indep dep cycle :
  reachable m →
  is_cycle m cycle →
  (∀ c, c ∈ cycle → in_subgraph m indep dep c) →
  makeUpdateList m indep dep = AssertFailed.
Proof.
  intros Hreach Hcyc Hrel.
  destruct (reachable_invariant m Hreach) as [Hwf _].
  destruct (makeUpdateList_phases m indep dep)
    as (m1 & P & D & _ & _ & -> & He & _ & _ & HDrel & HD).
  apply (makeUpdateOrder_cycle indep m1 D (list_to_set cycle)).
  - by eapply evolves_inverse_edges.
  - done.
  - destruct cycle as [|x l]; [done|]. set_solver.
  - intros c Hc. apply HDrel, Hrel. by apply elem_of_list_to_set in Hc.
  - intros c Hc. apply elem_of_list_to_set in Hc.
    destruct (is_cycle_next m cycle Hcyc c Hc) as (c' & Hc' & Hdep).
    exists c'. split; [by apply elem_of_list_to_set|].
    by destruct (He c) as (_&->&_).
Qed.

(** C4. Duplicate identifiers.  If the traversal of the scope tree comes
    to a non-constant variable whose identifier already has a node in the
    dependency map, [constructMapRecursive] throws, and so do [constructMap]
    and, when the traversal started from the empty map, the constructor:
    the caller gets the exception and no dependency map. *)
Theorem constructMap_duplicate vars (m0 m : DepMap) l1 pv l2 :
  block_variables vars = l1 ++ pv :: l2 →
  addVariables m0 l1 = Returned m →
  isConstant pv = false →
  is_Some (m !! getId pv) →
  constructMapRecursive vars m0 = Threw SchnekException ∧
  constructMap vars m0 = Threw SchnekException ∧
  (m0 = ∅ → DependencyMap_new vars = Threw SchnekException).
Proof.
  intros Hvars Hl1 Hconst Hdup.
  assert (H : constructMapRecursive vars m0 = Threw SchnekException).
  { rewrite constructMapRecursive_flat, Hvars, addVariables_app, Hl1. simpl.
    unfold addVariable. rewrite Hconst. by rewrite decide_True. }
  split_and!; [done | | intros ->]; unfold DependencyMap_new, constructMap; by rewrite H.
Qed.

(** C5. After the constructor has built the map, for all nodes [x] and [y]
    of the map the identifier of [x] is in the [dependsOn] set of [y]
    exactly when the identifier of [y] is in the [modifies] set of [x]. *)
Theorem constructMap_inverse vars (m : DepMap) x y nx ny :
  DependencyMap_new vars = Returned m →
  m !! x = Some nx → m !! y = Some ny →
  x ∈ dependsOn ny ↔ y ∈ modifies nx.
Proof.
  intros Hnew Hx Hy. destruct (DependencyMap_new_invariant vars m Hnew) as [Hwf _].
  specialize (Hwf x y). unfold deps_of, mods_of in Hwf.
  by rewrite (lookup_total_correct _ _ _ Hx), (lookup_total_correct _ _ _ Hy) in Hwf.
Qed.

(** C7 (as the code has it).  A call of [makeUpdateList] that returns, on
    a dependency map built by the constructor, keeps every node with its
    variable and its [dependsOn] and [modifies] sets; the keys after the
    call are the keys before it together with the identifiers of the
    dependent variables, and a node the call added has no variable and no
    edges. *)
Theorem makeUpdateList_frame (m : DepMap) indep dep m' out :
  reachable m →
  makeUpdateList m indep dep = Returned (m', out) →
  dom m' = dom m ∪ ids_of dep ∧
  (∀ k n, m !! k = Some n →
     ∃ n', m' !! k = Some n' ∧
           v n' = v n ∧ dependsOn n' = dependsOn n ∧ modifies n' = modifies n) ∧
  (∀ k n', m !! k = None → m' !! k = Some n' →
     v n' = None ∧ dependsOn n' = ∅ ∧ modifies n' = ∅).
Proof.
  intros Hreach Hret.
  destruct (reachable_invariant m Hreach) as [Hwf _].
  pose proof (makeUpdateList_evolves _ _ _ _ _ Hret) as Hev.
  split_and!.
  - destruct (makeUpdateList_phases m indep dep)
      as (m1 & P & D & _ & _ & Heq & He & Hdom & HP & _ & HD).
    rewrite Heq in Hret.
    pose proof (makeUpdateOrder_outcome indep m1 D HD) as Hout.
    rewrite Hret in Hout. destruct Hout as [[-> _] _]. rewrite Hdom.
    apply set_eq. intros x. rewrite !elem_of_union, HP. split.
    + intros [Hreq|Hx]; [|by left]. destruct Hreq as [id Hid|x y _ Hdep]; [by right|].
      left. apply elem_of_dom. apply Hwf in Hdep. by eapply mods_of_present.
    + intros [Hx|Hx]; [by right|]. left. by constructor.
  - intros k n Hk. destruct (Hev k) as (Hs & Hd & Hm & Hv).
    destruct Hs as [n' Hn']; [eauto|]. exists n'. split; [done|].
    unfold deps_of, mods_of, var_of in *.
    by rewrite (lookup_total_correct _ _ _ Hk), (lookup_total_correct _ _ _ Hn') in *.
  - intros k n' Hk Hn'. destruct (Hev k) as (_ & Hd & Hm & Hv).
    rewrite (deps_of_absent m k Hk) in Hd. rewrite (mods_of_absent m k Hk) in Hm.
    rewrite (var_of_absent m k Hk) in Hv.
    unfold deps_of, mods_of, var_of in *.
    by rewrite (lookup_total_correct _ _ _ Hn') in *.
Qed.

(** C9. [addIndependent] inserts the variable into the independent set and
    clears the validity flag, [addDependent] does the same for the dependent
    set, and neither changes anything else of the updater. *)
Theorem add_invalidates (u : DependencyUpdater) (pv : pVariable) :
  (independentVars (addIndependent u pv) = {[pv]} ∪ independentVars u ∧
   isValid (addIndependent u pv) = false ∧
   dependentVars (addIndependent u pv) = dependentVars u ∧
   dependencies (addIndependent u pv) = dependencies u ∧
   updateList (addIndependent u pv) = updateList u) ∧
  (dependentVars (addDependent u pv) = {[pv]} ∪ dependentVars u ∧
   isValid (addDependent u pv) = false ∧
   independentVars (addDependent u pv) = independentVars u ∧
   dependencies (addDependent u pv) = dependencies u ∧
   updateList (addDependent u pv) = updateList u).
Proof. by repeat split. Qed.

(** C10. A freshly constructed updater is valid, its two sets are empty
    and its update list is empty. *)
Theorem DependencyUpdater_new_valid (d : DepMap) :
  isValid (DependencyUpdater_new d) = true ∧
  independentVars (DependencyUpdater_new d) = ∅ ∧
  dependentVars (DependencyUpdater_new d) = ∅ ∧
  updateList (DependencyUpdater_new d) = [] ∧
  dependencies (DependencyUpdater_new d) = d.
Proof. by repeat split. Qed.

End Claims.

(** * The claims on concrete inputs *)

Lemma abc_map_built : DependencyMap_new abc = Returned abc_map.
Proof. vm_compute. reflexivity. Qed.

Lemma abc_map_reachable : reachable abc_map.
Proof. apply (reachable_new abc). exact abc_map_built. Qed.

Lemma abc_resolved_returned :
  abc_resolved = Returned (map_after abc_resolved, [Some vA; Some vB; Some vC]).
Proof. vm_compute. reflexivity. Qed.

Lemma cyc_map_built : DependencyMap_new cyc = Returned cyc_map.
Proof. vm_compute. reflexivity. Qed.

Lemma cyc_map_reachable : reachable cyc_map.
Proof. apply (reachable_new cyc). exact cyc_map_built. Qed.

(** C6.  [resetCounters] leaves the counters as they are: after the
    resolution of the scenario A, B, C the counter of B is 0, its
    [dependsOn] set has one element, and [resetCounters] does not change
    that. *)
Theorem resetCounters_keeps_counters :
  reachable (map_after abc_resolved) ∧
  ctr_of (resetCounters (map_after abc_resolved)) 2 = 0 ∧
  size (deps_of (resetCounters (map_after abc_resolved)) 2) = 1%nat.
Proof.
  split.
  - eapply reachable_makeUpdateList; [exact abc_map_reachable|].
    exact abc_resolved_returned.
  - split; vm_compute; reflexivity.
Qed.

Lemma cyc_required_2 : required cyc_map (ids_of (only cB)) 2.
Proof. apply required_dependent. vm_compute. reflexivity. Qed.

Lemma cyc_in_subgraph_1 : in_subgraph cyc_map (only cA) (only cB) 1.
Proof.
  apply relevant_independent; [vm_compute; reflexivity|].
  apply (required_dependsOn _ _ 1 2); [exact cyc_required_2|].
  vm_compute. reflexivity.
Qed.

Lemma cyc_in_subgraph_2 : in_subgraph cyc_map (only cA) (only cB) 2.
Proof.
  apply (relevant_modifies _ _ _ 1 2); [exact cyc_in_subgraph_1| |exact cyc_required_2].
  vm_compute. reflexivity.
Qed.

Lemma cyc_is_cycle : is_cycle cyc_map [1; 2].
Proof. split; vm_compute; reflexivity. Qed.

Lemma cyc_in_subgraph c : c ∈ [1; 2] → in_subgraph cyc_map (only cA) (only cB) c.
Proof.
  intros [->|[->|H]%elem_of_cons]%elem_of_cons.
  - exact cyc_in_subgraph_1.
  - exact cyc_in_subgraph_2.
  - by apply elem_of_nil in H.
Qed.

Lemma abc_const_resolved_returned :
  abc_const_resolved = Returned (map_after abc_const_resolved, []).
Proof. vm_compute. reflexivity. Qed.

(** C1 on the scenario A, B, C. *)
Lemma makeUpdateList_topological_witness :
  reachable abc_map ∧
  makeUpdateList abc_map (only vA) (only vC)
    = Returned (map_after abc_resolved, [Some vA; Some vB; Some vC]) ∧
  (∃ ids, [Some vA; Some vB; Some vC] = var_of (map_after abc_resolved) <$> ids ∧
     NoDup ids ∧
     ∀ i j x y, ids !! i = Some x → ids !! j = Some y →
       x ∈ deps_of (map_after abc_resolved) y → (i < j)%nat) ∧
  (∀ i j pv pw, [Some vA; Some vB; Some vC] !! i = Some (Some pv) →
     [Some vA; Some vB; Some vC] !! j = Some (Some pw) →
     getId pv ∈ deps_of (map_after abc_resolved) (getId pw) → (i < j)%nat).
Proof.
  split; [exact abc_map_reachable|]. split; [exact abc_resolved_returned|].
  exact (makeUpdateList_topological abc_map (only vA) (only vC) _ _
           abc_map_reachable abc_resolved_returned).
Defined.

(** C2 on the scenario A, B, C. *)
Lemma makeUpdateList_complete_witness :
  makeUpdateList abc_map (only vA) (only vC)
    = Returned (map_after abc_resolved, [Some vA; Some vB; Some vC]) ∧
  (∃ ids, [Some vA; Some vB; Some vC] = var_of (map_after abc_resolved) <$> ids ∧
     NoDup ids ∧
     ∀ id, id ∈ ids ↔ in_subgraph abc_map (only vA) (only vC) id) ∧
  (∀ pv, Some pv ∈ [Some vA; Some vB; Some vC] ↔
     ∃ id, in_subgraph abc_map (only vA) (only vC) id ∧
           var_of (map_after abc_resolved) id = Some pv).
Proof.
  split; [exact abc_resolved_returned|].
  exact (makeUpdateList_complete abc_map (only vA) (only vC) _ _ abc_resolved_returned).
Defined.

(** C3 as stated fails: on two variables that read each other the call
    stops at the assertion and throws nothing. *)
Lemma cycle_is_not_thrown :
  reachable cyc_map ∧ is_cycle cyc_map [1; 2] ∧
  in_subgraph cyc_map (only cA) (only cB) 1 ∧
  in_subgraph cyc_map (only cA) (only cB) 2 ∧
  makeUpdateList cyc_map (only cA) (only cB) = AssertFailed ∧
  ¬ ∃ e, makeUpdateList cyc_map (only cA) (only cB) = Threw e.
Proof.
  split; [exact cyc_map_reachable|]. split; [exact cyc_is_cycle|].
  split; [exact cyc_in_subgraph_1|]. split; [exact cyc_in_subgraph_2|].
  assert (H : makeUpdateList cyc_map (only cA) (only cB) = AssertFailed)
    by (vm_compute; reflexivity).
  split; [exact H|]. intros [e He]. rewrite H in He. discriminate He.
Qed.

(** C3 on two variables that read each other. *)
Lemma makeUpdateList_cycle_asserts_witness :
  reachable cyc_map ∧ is_cycle cyc_map [1; 2] ∧
  (∀ c, c ∈ [1; 2] → in_subgraph cyc_map (only cA) (only cB) c) ∧
  makeUpdateList cyc_map (only cA) (only cB) = AssertFailed.
Proof.
  split; [exact cyc_map_reachable|]. split; [exact cyc_is_cycle|].
  split; [exact cyc_in_subgraph|].
  exact (makeUpdateList_cycle_asserts cyc_map (only cA) (only cB) [1; 2]
           cyc_map_reachable cyc_is_cycle cyc_in_subgraph).
Defined.

(** C4 on a tree that uses the identifier 1 twice. *)
Lemma constructMap_duplicate_witness :
  block_variables dup = [var 1 []; var 2 []] ++ var 1 [2] :: [] ∧
  addVariables ∅ [var 1 []; var 2 []] = Returned dup_before ∧
  isConstant (var 1 [2]) = false ∧
  is_Some (dup_before !! getId (var 1 [2])) ∧
  constructMapRecursive dup ∅ = Threw SchnekException ∧
  constructMap dup ∅ = Threw SchnekException ∧
  ((∅ : DepMap) = ∅ → DependencyMap_new dup = Threw SchnekException).
Proof.
  assert (H1 : block_variables dup = [var 1 []; var 2 []] ++ var 1 [2] :: [])
    by reflexivity.
  assert (H2 : addVariables ∅ [var 1 []; var 2 []] = Returned dup_before)
    by (vm_compute; reflexivity).
  assert (H3 : isConstant (var 1 [2]) = false) by reflexivity.
  assert (H4 : is_Some (dup_before !! getId (var 1 [2])))
    by (eexists; vm_compute; reflexivity).
  split; [exact H1|]. split; [exact H2|]. split; [exact H3|]. split; [exact H4|].
  exact (constructMap_duplicate dup ∅ dup_before _ _ _ H1 H2 H3 H4).
Defined.

(** C5 on the nodes A and B of the scenario. *)
Lemma constructMap_inverse_witness :
  DependencyMap_new abc = Returned abc_map ∧
  abc_map !! 1 = Some (abc_map !!! 1) ∧
  abc_map !! 2 = Some (abc_map !!! 2) ∧
  (1 ∈ dependsOn (abc_map !!! 2) ↔ 2 ∈ modifies (abc_map !!! 1)).
Proof.
  assert (H1 : abc_map !! 1 = Some (abc_map !!! 1)) by (vm_compute; reflexivity).
  assert (H2 : abc_map !! 2 = Some (abc_map !!! 2)) by (vm_compute; reflexivity).
  split; [exact abc_map_built|]. split; [exact H1|]. split; [exact H2|].
  exact (constructMap_inverse abc abc_map 1 2 _ _ abc_map_built H1 H2).
Defined.

(** C7 as stated fails: a dependent variable without a node gets one. *)
Lemma makeUpdateList_adds_node :
  reachable abc_map ∧
  makeUpdateList abc_map ∅ (only (const 9))
    = Returned (map_after abc_const_resolved, []) ∧
  dom (map_after abc_const_resolved) ≠ dom abc_map.
Proof.
  split; [exact abc_map_reachable|]. split; [exact abc_const_resolved_returned|].
  intros H. assert (H9 : 9 ∈ dom abc_map).
  { rewrite <- H. vm_compute. reflexivity. }
  vm_compute in H9. discriminate H9.
Qed.

(** C7 on the same call. *)
Lemma makeUpdateList_frame_witness :
  reachable abc_map ∧
  makeUpdateList abc_map ∅ (only (const 9))
    = Returned (map_after abc_const_resolved, []) ∧
  dom (map_after abc_const_resolved) = dom abc_map ∪ ids_of (only (const 9)) ∧
  (∀ k n, abc_map !! k = Some n →
     ∃ n', map_after abc_const_resolved !! k = Some n' ∧
           v n' = v n ∧ dependsOn n' = dependsOn n ∧ modifies n' = modifies n) ∧
  (∀ k n', abc_map !! k = None → map_after abc_const_resolved !! k = Some n' →
     v n' = None ∧ dependsOn n' = ∅ ∧ modifies n' = ∅).
Proof.
  split; [exact abc_map_reachable|]. split; [exact abc_const_resolved_returned|].
  exact (makeUpdateList_frame abc_map ∅ (only (const 9)) _ _
           abc_map_reachable abc_const_resolved_returned).
Defined.

(** * Further properties of the code *)

(** ** What the constructor builds *)

Section Built.
Context `{VM : VariableModel}.

Lemma elem_of_nonconstant (l : list pVariable) pv :
  pv ∈ nonconstant l ↔ pv ∈ l ∧ isConstant pv = false.
Proof. unfold nonconstant. rewrite list_elem_of_filter. tauto. Qed.

Lemma addVariables_outcome l (m : DepMap) :
  match addVariables m l with
  | Returned m' =>
      NoDup (getId <$> nonconstant l) ∧
      (∀ pv, pv ∈ nonconstant l → m !! getId pv = None) ∧
      (∀ k n, m' !! k = Some n ↔
         m !! k = Some n ∨
         ∃ pv, pv ∈ nonconstant l ∧ getId pv = k ∧
               n = VarInfo_new pv (getDependencies pv) ∅)
  | Threw e =>
      e = SchnekException ∧
      ¬ (NoDup (getId <$> nonconstant l) ∧
         ∀ pv, pv ∈ nonconstant l → m !! getId pv = None)
  | _ => False
  end.
Proof.
  revert m. induction l as [|pv l IH]; intros m.
  - simpl. split_and!; [constructor | by intros pv H; apply elem_of_nil in H |].
    intros k n. split; [by left|]. intros [H|(pv & H & _)]; [done|].
    by apply elem_of_nil in H.
  - cbn [addVariables]. unfold addVariable, nonconstant. rewrite filter_cons.
    fold (nonconstant l). destruct (isConstant pv) eqn:Hc.
    + destruct (decide (true = false)) as [?|_]; [done|]. apply IH.
    + destruct (decide (false = false)) as [_|?]; [|done].
      destruct (decide (is_Some (m !! getId pv))) as [Hs|Hs].
      * simpl. split; [done|]. intros [_ H]. specialize (H pv ltac:(left)).
        rewrite H in Hs. by destruct Hs.
      * assert (Hnone : m !! getId pv = None).
        { destruct (m !! getId pv); [exfalso; apply Hs; eauto | done]. }
        simpl. specialize (IH (<[getId pv := VarInfo_new pv (getDependencies pv) ∅]> m)).
        destruct (addVariables _ l) as [m'|e| |]; [| |done..].
        -- destruct IH as (Hnd & Hfree & Hlook).
           assert (Hid : getId pv ∉ getId <$> nonconstant l).
           { intros (pv' & Heq & Hin)%list_elem_of_fmap. specialize (Hfree pv' Hin).
             rewrite <- Heq, lookup_insert_eq in Hfree. done. }
           split_and!.
           ++ by apply NoDup_cons.
           ++ intros pv' [->|Hin]%elem_of_cons; [done|].
              specialize (Hfree pv' Hin).
              rewrite lookup_insert_ne in Hfree; [done|].
              intros Heq. apply Hid. apply list_elem_of_fmap. by exists pv'.
           ++ intros k n. rewrite Hlook. split.
              ** intros [H|(pv' & Hin & Hk & Hn)].
                 --- destruct (decide (k = getId pv)) as [->|Hne].
                     +++ rewrite lookup_insert_eq in H. injection H as <-.
                         right. exists pv. split_and!; [left | done..].
                     +++ rewrite lookup_insert_ne in H by done. by left.
                 --- right. exists pv'. split_and!; [by right | done..].
              ** intros [H|(pv' & [->|Hin]%elem_of_cons & Hk & Hn)].
                 --- left. rewrite lookup_insert_ne; [done|]. intros <-. congruence.
                 --- left. subst k n. by rewrite lookup_insert_eq.
                 --- right. by exists pv'.
        -- destruct IH as [-> Hnot]. split; [done|]. intros [Hnd Hfree].
           apply NoDup_cons in Hnd as [Hid Hnd].
           apply Hnot. split; [done|]. intros pv' Hin.
           rewrite lookup_insert_ne.
           ++ apply Hfree. by right.
           ++ intros Heq. apply Hid. apply list_elem_of_fmap. by exists pv'.
Qed.

Lemma constructMap_entry_deps (m : DepMap) k x :
  deps_of (constructMap_entry m k) x = deps_of m x.
Proof. by destruct (constructMap_entry_fold [k] m) as (_ & H & _). Qed.

Lemma constructMap_entry_keys (m : DepMap) k x :
  is_Some (constructMap_entry m k !! x) ↔ is_Some (m !! x) ∨ x ∈ deps_of m k.
Proof.
  unfold constructMap_entry. destruct (m !! k) as [entry|] eqn:E.
  - destruct (insertModifies_fold k (set_iter (dependsOn entry)) m) as (_ & _ & _ & Hs).
    rewrite Hs, elem_of_set_iter. unfold deps_of.
    by rewrite (lookup_total_correct _ _ _ E).
  - rewrite deps_of_absent by done. set_solver.
Qed.

Lemma constructMap_entry_fold_keys ks (m : DepMap) x :
  is_Some (foldl constructMap_entry m ks !! x)
  ↔ is_Some (m !! x) ∨ ∃ y, y ∈ ks ∧ x ∈ deps_of m y.
Proof.
  revert m. induction ks as [|k ks IH]; intros m; simpl.
  - split; [by left|]. intros [H|(y & Hy & _)]; [done | by apply elem_of_nil in Hy].
  - rewrite IH, constructMap_entry_keys. split.
    + intros [[H|H]|(y & Hy & Hx)].
      * by left.
      * right. exists k. split; [left | done].
      * right. exists y. split; [by right|]. by rewrite constructMap_entry_deps in Hx.
    + intros [H|(y & [->|Hy]%elem_of_cons & Hx)].
      * left. by left.
      * left. by right.
      * right. exists y. split; [done|]. by rewrite constructMap_entry_deps.
Qed.

(** The map the constructor returns, in terms of the map after the first
    pass. *)
Lemma DependencyMap_new_passes vars (m : DepMap) :
  DependencyMap_new vars = Returned m →
  ∃ m1, addVariables ∅ (block_variables vars) = Returned m1 ∧
    (∀ k, deps_of m k = deps_of m1 k ∧ var_of m k = var_of m1 k) ∧
    (∀ x y, y ∈ mods_of m x ↔ x ∈ deps_of m1 y) ∧
    (∀ x, is_Some (m !! x) ↔ is_Some (m1 !! x) ∨ ∃ y, x ∈ deps_of m1 y).
Proof.
  unfold DependencyMap_new, constructMap. rewrite constructMapRecursive_flat.
  destruct (addVariables ∅ (block_variables vars)) as [m1| | |] eqn:E; simpl; try done.
  intros [= <-]. exists m1. split; [done|].
  assert (Hf : fresh_nodes m1).
  { eapply addVariables_fresh; [|exact E]. intros k n. by rewrite lookup_empty. }
  destruct (constructMap_entry_fold (map_iter m1) m1) as (Hm & Hd & Hv & _).
  split_and!.
  - intros k. by rewrite Hd, Hv.
  - intros x y. rewrite Hm, fresh_nodes_mods_of by done. rewrite elem_of_map_iter. split.
    + intros [H|[_ H]]; [set_solver | done].
    + intros H. right. split; [by eapply deps_of_present | done].
  - intros x. rewrite constructMap_entry_fold_keys. split.
    + intros [H|(y & _ & H)]; [by left | right; by exists y].
    + intros [H|(y & H)]; [by left|]. right. exists y. split; [|done].
      apply elem_of_map_iter. by eapply deps_of_present.
Qed.

Lemma first_pass_node (m1 : DepMap) l k :
  addVariables ∅ l = Returned m1 →
  ∀ n, m1 !! k = Some n ↔
    ∃ pv, pv ∈ l ∧ isConstant pv = false ∧ getId pv = k ∧
          n = VarInfo_new pv (getDependencies pv) ∅.
Proof.
  intros H n. pose proof (addVariables_outcome l ∅) as Ho. rewrite H in Ho.
  destruct Ho as (_ & _ & ->). rewrite lookup_empty. split.
  - intros [?|(pv & Hin%elem_of_nonconstant & Hk & Hn)]; [done|]. exists pv. tauto.
  - intros (pv & Hin & Hc & Hk & Hn). right. exists pv.
    split_and!; [by apply elem_of_nonconstant | done..].
Qed.

(** X1. The constructor returns a dependency map when the identifiers of
    the non-constant variables of the scope tree are pairwise distinct, and
    throws [SchnekException] when two of them are equal. *)
Theorem DependencyMap_new_succeeds_iff vars :
  (NoDup (getId <$> nonconstant (block_variables vars)) →
     ∃ m, DependencyMap_new vars = Returned m) ∧
  (¬ NoDup (getId <$> nonconstant (block_variables vars)) →
     DependencyMap_new vars = Threw SchnekException).
Proof.
  unfold DependencyMap_new, constructMap. rewrite constructMapRecursive_flat.
  pose proof (addVariables_outcome (block_variables vars) ∅) as Ho.
  destruct (addVariables ∅ (block_variables vars)) as [m1|e| |]; try done.
  - destruct Ho as (Hnd & _). split; [eauto | done].
  - destruct Ho as (-> & Hnot). split; [|done].
    intros Hnd. exfalso. apply Hnot. split; [done|]. intros pv _. apply lookup_empty.
Qed.

(** X2. In the map the constructor returns, every non-constant variable of
    the scope tree has a node under its identifier, with the variable and
    the dependency set of its expression; and a node that carries a
    variable is the node of a non-constant variable of the tree, stored
    under its identifier: constants get no node of their own. *)
Theorem DependencyMap_new_variable_nodes vars (m : DepMap) :
  DependencyMap_new vars = Returned m →
  (∀ pv, pv ∈ block_variables vars → isConstant pv = false →
     ∃ n, m !! getId pv = Some n ∧ v n = Some pv ∧
          dependsOn n = getDependencies pv) ∧
  (∀ k n pv, m !! k = Some n → v n = Some pv →
     pv ∈ block_variables vars ∧ isConstant pv = false ∧ getId pv = k ∧
     dependsOn n = getDependencies pv).
Proof.
  intros Hnew. destruct (DependencyMap_new_passes vars m Hnew) as (m1 & H1 & Hdv & _ & Hkeys).
  split.
  - intros pv Hin Hc.
    assert (Hn1 : m1 !! getId pv = Some (VarInfo_new pv (getDependencies pv) ∅)).
    { apply (first_pass_node m1 _ _ H1). by exists pv. }
    destruct (proj2 (Hkeys (getId pv))) as [n Hn]; [left; eauto|].
    exists n. split; [done|]. destruct (Hdv (getId pv)) as [Hd Hv].
    unfold deps_of, var_of in Hd, Hv.
    by rewrite (lookup_total_correct _ _ _ Hn), (lookup_total_correct _ _ _ Hn1) in *.
  - intros k n pv Hn Hv. destruct (Hdv k) as [Hd Hv'].
    unfold deps_of, var_of in Hd, Hv'. rewrite (lookup_total_correct _ _ _ Hn) in *.
    destruct (m1 !! k) as [n1|] eqn:E.
    + rewrite (lookup_total_correct _ _ _ E) in *.
      apply (first_pass_node m1 _ _ H1) in E as (pv' & Hin & Hc & Hk & ->).
      simpl in *. rewrite Hv in Hv'. injection Hv' as ->. by rewrite Hd.
    + rewrite (node_absent _ _ E) in Hv'. simpl in Hv'. congruence.
Qed.

(** X3. The keys of the map the constructor returns are the identifiers
    of the non-constant variables and the identifiers their expressions
    read; the [modifies] set of a node holds the identifiers of the
    non-constant variables that read it; a node without variable (made by
    [operator[]] for an identifier that is only read) has an empty
    [dependsOn] set. *)
Theorem DependencyMap_new_keys vars (m : DepMap) :
  DependencyMap_new vars = Returned m →
  (∀ k, is_Some (m !! k) ↔
     ∃ pv, pv ∈ block_variables vars ∧ isConstant pv = false ∧
           (getId pv = k ∨ k ∈ getDependencies pv)) ∧
  (∀ k n y, m !! k = Some n →
     (y ∈ modifies n ↔
        ∃ pv, pv ∈ block_variables vars ∧ isConstant pv = false ∧
              getId pv = y ∧ k ∈ getDependencies pv)) ∧
  (∀ k n, m !! k = Some n → v n = None → dependsOn n = ∅).
Proof.
  intros Hnew. destruct (DependencyMap_new_passes vars m Hnew) as (m1 & H1 & Hdv & Hmods & Hkeys).
  assert (Hdeps : ∀ x y, x ∈ deps_of m1 y ↔
            ∃ pv, pv ∈ block_variables vars ∧ isConstant pv = false ∧
                  getId pv = y ∧ x ∈ getDependencies pv).
  { intros x y. split.
    - intros Hx. destruct (deps_of_present _ _ _ Hx) as [n Hn].
      unfold deps_of in Hx. rewrite (lookup_total_correct _ _ _ Hn) in Hx.
      apply (first_pass_node m1 _ _ H1) in Hn as (pv & Hin & Hc & Hk & ->).
      by exists pv.
    - intros (pv & Hin & Hc & Hk & Hx).
      assert (Hn : m1 !! y = Some (VarInfo_new pv (getDependencies pv) ∅)).
      { apply (first_pass_node m1 _ _ H1). by exists pv. }
      unfold deps_of. by rewrite (lookup_total_correct _ _ _ Hn). }
  split_and!.
  - intros k. rewrite Hkeys. split.
    + intros [[n Hn]|(y & Hy)].
      * apply (first_pass_node m1 _ _ H1) in Hn as (pv & Hin & Hc & Hk & _).
        exists pv. tauto.
      * apply Hdeps in Hy as (pv & Hin & Hc & _ & Hx). exists pv. tauto.
    + intros (pv & Hin & Hc & [Hk|Hx]).
      * left. eexists. apply (first_pass_node m1 _ _ H1). by exists pv.
      * right. exists (getId pv). apply Hdeps. by exists pv.
  - intros k n y Hn. rewrite <- Hdeps, <- Hmods. unfold mods_of.
    by rewrite (lookup_total_correct _ _ _ Hn).
  - intros k n Hn Hv. destruct (Hdv k) as [Hd Hv'].
    unfold deps_of, var_of in Hd, Hv'. rewrite (lookup_total_correct _ _ _ Hn) in *.
    rewrite Hd. destruct (m1 !! k) as [n1|] eqn:E.
    + rewrite (lookup_total_correct _ _ _ E) in *.
      apply (first_pass_node m1 _ _ H1) in E as (pv & _ & _ & _ & ->).
      simpl in Hv'. congruence.
    + by rewrite (node_absent _ _ E).
Qed.

End Built.

(** ** A failed assertion means a cycle *)

Section Cycles.
Context `{VM : VariableModel}.

Lemma linked_tail (m : DepMap) a l : linked m (a :: l) → linked m l.
Proof. destruct l; simpl; tauto. Qed.

Lemma linked_app_r (m : DepMap) l1 l2 : linked m (l1 ++ l2) → linked m l2.
Proof.
  induction l1 as [|a l1 IH]; [done|]. intros H. apply IH. by eapply linked_tail.
Qed.

Lemma linked_app_l (m : DepMap) l1 l2 : linked m (l1 ++ l2) → linked m l1.
Proof.
  induction l1 as [|a l1 IH]; [done|]. destruct l1 as [|b l1]; [done|].
  simpl. intros [H1 H2]. split; [done|]. by apply IH.
Qed.

Lemma linked_chain (m : DepMap) first x l :
  linked m (x :: l ++ [first]) → chain m first (x :: l).
Proof.
  revert x. induction l as [|y l IH]; intros x; simpl.
  - tauto.
  - intros [H1 H2]. split; [done|]. by apply IH.
Qed.

Lemma chain_ext (m m' : DepMap) first l :
  (∀ k, deps_of m' k = deps_of m k) → chain m first l → chain m' first l.
Proof.
  intros He. induction l as [|x l IH]; [done|]. destruct l as [|y l].
  - simpl. by rewrite He.
  - intros [H1 H2]. split; [by rewrite He | by apply IH].
Qed.

Lemma repeat_split (p : list Z) :
  ¬ NoDup p → ∃ l1 x l2 l3, p = l1 ++ x :: l2 ++ x :: l3.
Proof.
  induction p as [|a p IH]; intros Hnd.
  - destruct Hnd. constructor.
  - destruct (decide (a ∈ p)) as [Hin|Hin].
    + apply list_elem_of_split in Hin as (l2 & l3 & ->). by exists [], a, l2, l3.
    + destruct IH as (l1 & x & l2 & l3 & ->).
      { intros H. apply Hnd. by constructor. }
      by exists (a :: l1), x, l2, l3.
Qed.

Lemma long_chain (m : DepMap) (W : list Z) n y :
  (∀ y, y ∈ W → ∃ x, x ∈ W ∧ x ∈ deps_of m y) →
  y ∈ W →
  ∃ p, length p = n ∧ (∀ z, z ∈ y :: p → z ∈ W) ∧ linked m (y :: p).
Proof.
  intros Hsucc. revert y. induction n as [|n IH]; intros y Hy.
  - exists []. split_and!; [done | | done].
    by intros z ->%list_elem_of_singleton.
  - destruct (Hsucc y Hy) as (x & Hx & Hdep).
    destruct (IH x Hx) as (p & Hlen & Hin & Hlink).
    exists (x :: p). split_and!; [simpl; lia | | done].
    intros z [->|Hz]%elem_of_cons; [done | by apply Hin].
Qed.

(** In a non-empty finite set of nodes each of which depends on a member
    of the set there is a dependency cycle. *)
Lemma cycle_exists (m : DepMap) (W : list Z) :
  W ≠ [] →
  (∀ y, y ∈ W → ∃ x, x ∈ W ∧ x ∈ deps_of m y) →
  ∃ c, is_cycle m c ∧ ∀ z, z ∈ c → z ∈ W.
Proof.
  intros HW Hsucc. assert (∃ y0, y0 ∈ W) as [y0 Hy0].
  { destruct W as [|y0 W']; [done|]. exists y0. left. }
  destruct (long_chain m W (length W) y0 Hsucc Hy0) as (p & Hlen & Hin & Hlink).
  destruct (repeat_split (y0 :: p)) as (l1 & x & l2 & l3 & Heq).
  { intros Hnd. apply NoDup_submseteq with (k := W) in Hnd; [|done].
    apply submseteq_length in Hnd. simpl in Hnd. lia. }
  rewrite Heq in Hlink, Hin. apply linked_app_r in Hlink.
  replace (x :: l2 ++ x :: l3) with ((x :: l2 ++ [x]) ++ l3) in Hlink
    by (by rewrite <- !app_comm_cons, <- app_assoc).
  apply linked_app_l, linked_chain in Hlink.
  exists (x :: l2). split; [done|].
  intros z Hz. apply Hin. apply elem_of_app. right.
  apply elem_of_cons in Hz as [->|Hz]; [left|]. right. apply elem_of_app. by left.
Qed.

Lemma order_loop_stuck (m0 : DepMap) (D : gset Z) fuel (m : DepMap) done ws out :
  inverse_edges m0 → D ⊆ dom m0 →
  order_inv m0 D m done ws → (length ws ≤ fuel)%nat →
  order_loop fuel D m ws out = AssertFailed →
  ∃ W, W ≠ [] ∧ (∀ y, y ∈ W → y ∈ D) ∧
       ∀ y, y ∈ W → ∃ x, x ∈ W ∧ x ∈ deps_of m0 y.
Proof.
  intros Hwf HD. revert m done ws out.
  induction fuel as [|fuel IH]; intros m done ws out Hinv Hfuel.
  - destruct ws; [done | simpl in Hfuel; lia].
  - destruct ws as [|w ws]; [done|]. cbn [order_loop].
    destruct (find_zero m (w :: ws)) as [[k ws']|] eqn:Hfz.
    + destruct (order_step m0 D Hwf HD m done (w :: ws) k ws' Hinv Hfz)
        as (_ & _ & _ & Hlen & m1 & -> & Hinv1).
      simpl. apply IH with (done := done ++ [k]); [done | simpl in *; lia].
    + intros _. exists (w :: ws). destruct Hinv as (_ & _ & Hset & Hctr & _).
      split_and!; [done | |].
      * intros y Hy. rewrite <- Hset. apply elem_of_list_to_set, elem_of_app. by right.
      * intros y Hy. pose proof (find_zero_None _ _ Hfz y Hy) as Hnz.
        rewrite (Hctr y Hy) in Hnz.
        destruct (size_pos_elem_of (deps_of m0 y ∩ list_to_set (w :: ws))) as [x Hx];
          [lia|].
        apply elem_of_intersection in Hx as [Hx1 Hx2].
        apply elem_of_list_to_set in Hx2. by exists x.
Qed.

(** X4. If [makeUpdateList] on a map built by the constructor stops at an
    assertion, the relevant subgraph contains a dependency cycle; so on an
    acyclic subgraph the call returns a list. *)
Theorem makeUpdateList_assert_cycle (m : DepMap) indep dep :
  reachable m →
  makeUpdateList m indep dep = AssertFailed →
  ∃ cycle, is_cycle m cycle ∧ ∀ c, c ∈ cycle → in_subgraph m indep dep c.
Proof.
  intros Hreach Hfail. destruct (reachable_invariant m Hreach) as [Hwf _].
  destruct (makeUpdateList_phases m indep dep)
    as (m1 & P & D & _ & _ & Heq & He & _ & _ & HDrel & HD).
  rewrite Heq in Hfail.
  pose proof (evolves_inverse_edges _ _ He Hwf) as Hwf1.
  destruct (makeUpdateOrder_start indep m1 D HD) as (m2 & Hstart & Hinv).
  rewrite Hstart in Hfail.
  destruct (order_loop_stuck m1 D _ m2 [] (set_iter D) [] Hwf1 HD Hinv ltac:(done) Hfail)
    as (W & HW & HWD & Hsucc).
  destruct (cycle_exists m1 W HW Hsucc) as (c & Hc & HcW).
  exists c. split.
  - destruct c as [|x c]; [done|]. apply (chain_ext m1 m); [|done].
    intros k. by destruct (He k) as (_&?&_).
  - intros z Hz. by apply HDrel, HWD, HcW.
Qed.

End Cycles.

(** ** The scan order: the smallest ready identifier goes first *)

Section ScanOrder.
Context `{VM : VariableModel}.

Lemma find_zero_first (m : DepMap) ws k ws' :
  find_zero m ws = Some (k, ws') →
  ∃ l1 l2, ws = l1 ++ k :: l2 ∧ ws' = l1 ++ l2 ∧
           ∀ e, e ∈ l1 → ctr_of m e ≠ 0.
Proof.
  revert ws'. induction ws as [|x ws IH]; intros ws'; simpl; [done|].
  case_decide as Hx.
  - intros [= <- <-]. exists [], ws. split_and!; [done..|].
    by intros e He; apply elem_of_nil in He.
  - destruct (find_zero m ws) as [[y r]|]; simpl; [|done].
    intros [= -> <-]. destruct (IH r eq_refl) as (l1 & l2 & -> & -> & Hnz).
    exists (x :: l1), l2. split_and!; [done..|].
    intros e [->|He]%elem_of_cons; [done | by apply Hnz].
Qed.

Lemma StronglySorted_lt (l : list Z) :
  StronglySorted Z.le l → NoDup l → StronglySorted Z.lt l.
Proof.
  induction 1 as [|x l Hl IH Hx]; intros Hnd; [constructor|].
  apply NoDup_cons in Hnd as [Hin Hnd]. constructor; [by apply IH|].
  rewrite Forall_forall in *. intros y Hy. specialize (Hx y Hy).
  assert (x ≠ y) by (intros ->; done). lia.
Qed.

Lemma set_iter_sorted (s : gset Z) : StronglySorted Z.lt (set_iter s).
Proof.
  apply StronglySorted_lt; [|apply NoDup_set_iter].
  unfold set_iter. apply StronglySorted_merge_sort; apply _.
Qed.

Lemma order_loop_ready (m0 : DepMap) (D : gset Z) fuel (m : DepMap) done ws out :
  inverse_edges m0 → D ⊆ dom m0 →
  order_inv m0 D m done ws → StronglySorted Z.lt ws →
  smallest_ready_first m0 done → pending m0 done ws →
  (length ws ≤ fuel)%nat →
  match order_loop fuel D m ws out with
  | Returned (m', out') =>
      ∃ rest, out' = out ++ (var_of m0 <$> rest) ∧
              order_inv m0 D m' (done ++ rest) [] ∧
              smallest_ready_first m0 (done ++ rest)
  | _ => True
  end.
Proof.
  intros Hwf HD. revert m done ws out.
  induction fuel as [|fuel IH]; intros m done ws out Hinv Hsort Hsrf Hpend Hfuel.
  - destruct ws; [|simpl in Hfuel; lia]. simpl. exists []. by rewrite !app_nil_r.
  - destruct ws as [|w ws].
    { simpl. exists []. by rewrite !app_nil_r. }
    cbn [order_loop].
    destruct (find_zero m (w :: ws)) as [[k ws']|] eqn:Hfz; [|done].
    destruct (order_step m0 D Hwf HD m done (w :: ws) k ws' Hinv Hfz)
      as (Hk & Hnone & _ & Hlen & m1 & -> & Hinv1).
    destruct (find_zero_first _ _ _ _ Hfz) as (l1 & l2 & Hws & -> & Hnz).
    simpl.
    assert (Hv : v (m !!! k) = var_of m0 k).
    { destruct Hinv as ([_ Hse] & _). by destruct (Hse k) as (_&_&?). }
    rewrite Hws in Hsort.
    pose proof Hsort as Hsort'. apply StronglySorted_app in Hsort' as (Hcross & Hs1 & Hs2).
    apply StronglySorted_cons in Hs2 as [Hk2 Hs2].
    assert (Hl1 : ∀ y, y ∈ l1 ++ l2 → y < k → y ∈ l1).
    { intros y [Hy|Hy]%elem_of_app Hlt; [done|].
      rewrite Forall_forall in Hk2. specialize (Hk2 y Hy). lia. }
    assert (Hblocked : ∀ y, y ∈ l1 →
              ∃ z, z ∈ deps_of m0 y ∧ z ∈ w :: ws).
    { intros y Hy. destruct Hinv as (_ & _ & _ & Hctr & _).
      assert (Hyw : y ∈ w :: ws) by (rewrite Hws; apply elem_of_app; by left).
      pose proof (Hnz y Hy) as Hnzy. rewrite (Hctr y Hyw) in Hnzy.
      destruct (size_pos_elem_of (deps_of m0 y ∩ list_to_set (w :: ws))) as [z Hz];
        [lia|].
      apply elem_of_intersection in Hz as [Hz1 Hz2].
      apply elem_of_list_to_set in Hz2. by exists z. }
    assert (Hmove : ∀ z, z ∈ w :: ws →
              z ∈ l1 ++ l2 ∨ (done ++ [k]) !! length done = Some z).
    { intros z Hz. rewrite Hws in Hz.
      apply elem_of_app in Hz as [Hz|[->|Hz]%elem_of_cons].
      - left. apply elem_of_app. by left.
      - right. by rewrite lookup_app_r, Nat.sub_diag by lia.
      - left. apply elem_of_app. by right. }
    specialize (IH m1 (done ++ [k]) (l1 ++ l2) (out ++ [v (m !!! k)]) Hinv1).
    destruct (order_loop fuel D m1 (l1 ++ l2) (out ++ [v (m !!! k)]))
      as [[m' out']| | |]; try done.
    destruct IH as (rest & -> & Hinv' & Hsrf').
    + apply StronglySorted_app. split_and!; [|done..].
      intros x1 x2 Hx1 Hx2. apply Hcross; [done | by right].
    + intros i j x y Hi Hj Hij Hyx.
      apply lookup_snoc_Some in Hj as [[Hjlt Hj]|[-> <-]].
      * apply lookup_snoc_Some in Hi as [[_ Hi]|[-> _]]; [|lia].
        destruct (Hsrf i j x y Hi Hj Hij Hyx) as (k' & z & Hk' & Hz & Hdep).
        exists k', z. split; [done|]. split; [by apply lookup_app_l_Some | done].
      * apply lookup_snoc_Some in Hi as [[_ Hi]|[-> _]]; [|lia].
        destruct (Hpend i x k Hi Hk Hyx) as (z & Hdep & [Hz|(k' & Hk' & Hz)]).
        -- by destruct (Hnone z Hdep).
        -- exists k', z. split; [split; [done | by eapply lookup_lt_Some]|].
           split; [by apply lookup_app_l_Some | done].
    + intros i x y Hi Hy Hyx.
      assert (Hyw : y ∈ w :: ws).
      { rewrite Hws. apply elem_of_app in Hy as [Hy|Hy]; apply elem_of_app;
          [by left | right; by right]. }
      apply lookup_snoc_Some in Hi as [[Hilt Hi]|[-> <-]].
      * destruct (Hpend i x y Hi Hyw Hyx) as (z & Hdep & [Hz|(k' & Hk' & Hz)]).
        -- exists z. split; [done|]. destruct (Hmove z Hz) as [H|H]; [by left|].
           right. exists (length done). split; [lia | done].
        -- exists z. split; [done|]. right. exists k'.
           split; [done | by apply lookup_app_l_Some].
      * destruct (Hblocked y (Hl1 y Hy Hyx)) as (z & Hdep & Hz).
        exists z. split; [done|]. destruct (Hmove z Hz) as [H|H]; [by left|].
        right. exists (length done). split; [lia | done].
    + simpl in *. lia.
    + exists (k :: rest). rewrite <- !app_assoc in *. simpl in *.
      by rewrite Hv.
Qed.

(** X5. The order among the nodes that are ready: in the returned list a
    node with a smaller identifier stands behind a node with a larger one
    only if it depends on a node that stands at or behind the position of
    the larger one and before its own.  As every round scans the working
    set in ascending order of the identifiers, the list is the update order
    in which the smallest ready identifier always goes first. *)
Theorem makeUpdateList_smallest_ready_first (m : DepMap) indep dep m' out :
  reachable m →
  makeUpdateList m indep dep = Returned (m', out) →
  ∃ ids, out = var_of m' <$> ids ∧ NoDup ids ∧
         (∀ id, id ∈ ids ↔ in_subgraph m indep dep id) ∧
         smallest_ready_first m' ids.
Proof.
  intros Hreach Hret. destruct (reachable_invariant m Hreach) as [Hwf _].
  destruct (makeUpdateList_phases m indep dep)
    as (m1 & P & D & _ & _ & Heq & He & _ & _ & HDrel & HD).
  rewrite Heq in Hret.
  pose proof (evolves_inverse_edges _ _ He Hwf) as Hwf1.
  pose proof (makeUpdateOrder_outcome indep m1 D HD) as Hout. rewrite Hret in Hout.
  destruct Hout as [[_ Hse] _].
  destruct (makeUpdateOrder_start indep m1 D HD) as (m2 & Hstart & Hinv).
  rewrite Hstart in Hret.
  pose proof (order_loop_ready m1 D (length (set_iter D)) m2 [] (set_iter D) []
                Hwf1 HD Hinv (set_iter_sorted D)) as H.
  rewrite Hret in H. destruct H as (rest & -> & (_ & Hnd & Hset & _) & Hsrf); [| |done|].
  { intros i j x y Hi. by rewrite lookup_nil in Hi. }
  { intros i x y Hi. by rewrite lookup_nil in Hi. }
  rewrite app_nil_r in *. simpl in *. exists rest. split_and!.
  - apply list_fmap_ext. intros _ x _. by destruct (Hse x) as (_&_&?).
  - done.
  - intros id. rewrite <- HDrel, <- Hset. by rewrite elem_of_list_to_set.
  - intros i j x y Hi Hj Hij Hyx.
    destruct (Hsrf i j x y Hi Hj Hij Hyx) as (k & z & Hk & Hz & Hdep).
    exists k, z. split; [done|]. split; [done|]. by destruct (Hse y) as (->&_).
Qed.

End ScanOrder.

(** ** The outcome depends on variables and edges only *)

Section GraphOnly.
Context `{VM : VariableModel}.

Lemma evolves_same_graph (m m' : DepMap) : evolves m m' → same_graph m m'.
Proof. intros He k. by destruct (He k) as (_&?&?&?). Qed.

Lemma same_graph_sym (m m' : DepMap) : same_graph m m' → same_graph m' m.
Proof. intros H k. by destruct (H k) as (?&?&?). Qed.

Lemma same_graph_trans (m1 m2 m3 : DepMap) :
  same_graph m1 m2 → same_graph m2 m3 → same_graph m1 m3.
Proof.
  intros H12 H23 k. destruct (H12 k) as (?&?&?), (H23 k) as (?&?&?).
  split_and!; congruence.
Qed.

Lemma required_same_graph (m m' : DepMap) B x :
  same_graph m m' → required m B x ↔ required m' B x.
Proof.
  intros He. split; induction 1 as [|x y _ IH Hx]; try by constructor.
  - eapply required_dependsOn; [exact IH|]. by destruct (He y) as (->&_).
  - eapply required_dependsOn; [exact IH|]. by destruct (He y) as (<-&_).
Qed.

Lemma in_subgraph_same_graph (m m' : DepMap) indep dep x :
  same_graph m m' → in_subgraph m indep dep x ↔ in_subgraph m' indep dep x.
Proof.
  intros He. unfold in_subgraph. split; apply relevant_ext.
  - intros k. by destruct (He k) as (_&?&_).
  - intros y. by apply required_same_graph.
  - intros k. by destruct (He k) as (_&?&_).
  - intros y. symmetry. by apply required_same_graph.
Qed.

Lemma find_zero_agree (a b : DepMap) ws :
  (∀ k, k ∈ ws → ctr_of b k = ctr_of a k) → find_zero b ws = find_zero a ws.
Proof.
  induction ws as [|x ws IH]; intros H; simpl; [done|].
  fold (ctr_of b x) (ctr_of a x). rewrite (H x) by left.
  rewrite IH; [done|]. intros k Hk. apply H. by right.
Qed.

Lemma find_zero_sub (m : DepMap) ws k ws' :
  find_zero m ws = Some (k, ws') → ∀ x, x ∈ ws' → x ∈ ws.
Proof.
  intros (l1 & l2 & -> & -> & _)%find_zero_Some x Hx.
  apply elem_of_app in Hx as [Hx|Hx]; apply elem_of_app; [by left | right; by right].
Qed.

Lemma alter_dec_agree (D : gset Z) (a b : DepMap) id :
  agree_on D a b → id ∈ D →
  agree_on D (alter (λ vi, set_counter vi (counter vi - 1)) id a)
             (alter (λ vi, set_counter vi (counter vi - 1)) id b).
Proof.
  intros (Ha & Hb & Hmv & Hc) Hid. split_and!.
  - by rewrite dom_alter_L.
  - by rewrite dom_alter_L.
  - intros k.
    destruct (alter_counter_same_edges (λ vi, counter vi - 1) id a) as [_ Hsa].
    destruct (alter_counter_same_edges (λ vi, counter vi - 1) id b) as [_ Hsb].
    destruct (Hsa k) as (_ & -> & ->), (Hsb k) as (_ & -> & ->). apply Hmv.
  - intros k Hk. rewrite !alter_dec_ctr, (Hc k Hk).
    destruct (decide (k = id)) as [->|Hne].
    + rewrite !decide_True; [done | split; [done | first [by apply Ha | by apply Hb]]..].
    + rewrite !decide_False; [done | tauto | tauto].
Qed.

Lemma order_dec_fold_agree (D : gset Z) l (a b : DepMap) :
  agree_on D a b →
  match foldl (order_dec D) (Returned a) l, foldl (order_dec D) (Returned b) l with
  | Returned a', Returned b' => agree_on D a' b'
  | AssertFailed, AssertFailed => True
  | _, _ => False
  end.
Proof.
  revert a b. induction l as [|id l IH]; intros a b Hag; cbn [foldl]; [done|].
  rewrite !order_dec_Returned. destruct (decide (id ∈ D)) as [Hid|Hid]; [|by apply IH].
  pose proof (alter_dec_agree D a b id Hag Hid) as Hag'.
  destruct Hag' as (Ha' & Hb' & Hmv' & Hc'). rewrite (Hc' id Hid).
  destruct (decide (0 ≤ _)).
  - apply IH. by split_and!.
  - by rewrite !(order_dec_failed D l AssertFailed I).
Qed.

Lemma order_loop_agree (D : gset Z) fuel (a b : DepMap) ws out :
  agree_on D a b → (∀ k, k ∈ ws → k ∈ D) →
  snd <$> order_loop fuel D b ws out = snd <$> order_loop fuel D a ws out.
Proof.
  revert a b ws out. induction fuel as [|fuel IH]; intros a b ws out Hag Hws.
  - by destruct ws.
  - destruct ws as [|w ws]; [done|]. cbn [order_loop].
    rewrite (find_zero_agree a b).
    2:{ intros k Hk. destruct Hag as (_ & _ & _ & Hc). by apply Hc, Hws. }
    destruct (find_zero a (w :: ws)) as [[k ws']|] eqn:Hfz; [|done].
    assert (Hv : v (b !!! k) = v (a !!! k))
      by (by destruct Hag as (_ & _ & H & _); destruct (H k) as (_&?)).
    assert (Hm : modifies (b !!! k) = modifies (a !!! k))
      by (by destruct Hag as (_ & _ & H & _); destruct (H k) as (?&_)).
    rewrite Hv, Hm.
    pose proof (order_dec_fold_agree D (set_iter (modifies (a !!! k))) a b Hag) as Hsim.
    destruct (foldl (order_dec D) (Returned a) _) as [a'| | |],
             (foldl (order_dec D) (Returned b) _) as [b'| | |]; try done.
    simpl. apply IH; [done|]. intros x Hx. apply Hws. by eapply find_zero_sub.
Qed.

Lemma makeUpdateOrder_agree indep (a b : DepMap) (D : gset Z) :
  D ⊆ dom a → D ⊆ dom b → same_graph a b →
  snd <$> makeUpdateOrder indep b D = snd <$> makeUpdateOrder indep a D.
Proof.
  intros Ha Hb Hsg.
  destruct (makeUpdateOrder_init indep a D Ha) as (a2 & -> & [Hda Hsa] & Hia & _).
  destruct (makeUpdateOrder_init indep b D Hb) as (b2 & -> & [Hdb Hsb] & Hib & _).
  apply order_loop_agree; [|by intros k Hk%elem_of_set_iter].
  split_and!.
  - by rewrite Hda.
  - by rewrite Hdb.
  - intros k. destruct (Hsa k) as (_ & -> & ->), (Hsb k) as (_ & -> & ->).
    by destruct (Hsg k) as (_ & ? & ?).
  - intros k Hk. rewrite Hia, Hib by done. by destruct (Hsg k) as (-> & _).
Qed.

(** The list [makeUpdateList] returns, or the assertion it stops at, is
    the same on two maps with the same variables and edges. *)
Lemma makeUpdateList_agree (m m' : DepMap) indep dep :
  same_graph m m' →
  snd <$> makeUpdateList m' indep dep = snd <$> makeUpdateList m indep dep.
Proof.
  intros Hsg.
  destruct (makeUpdateList_phases m indep dep)
    as (m1 & P & D & _ & _ & -> & He & _ & _ & HDrel & HD).
  destruct (makeUpdateList_phases m' indep dep)
    as (m1' & P' & D' & _ & _ & -> & He' & _ & _ & HDrel' & HD').
  assert (D' = D) as ->.
  { apply set_eq. intros x. rewrite HDrel, HDrel'. symmetry.
    by apply in_subgraph_same_graph. }
  apply makeUpdateOrder_agree; [done..|].
  eapply same_graph_trans; [apply same_graph_sym, evolves_same_graph, He|].
  eapply same_graph_trans; [exact Hsg | by apply evolves_same_graph].
Qed.

(** X6. The list [makeUpdateList] returns, or the assertion it stops at,
    depends on the variables and edges of the nodes only: on two maps with
    the same variable and the same [dependsOn] and [modifies] sets at every
    key (whatever their counters, and whether or not default nodes are
    present) the outcome is the same, and the maps left behind again agree
    on variables and edges. *)
Theorem makeUpdateList_graph_only (m1 m2 : DepMap) indep dep :
  same_graph m1 m2 →
  snd <$> makeUpdateList m1 indep dep = snd <$> makeUpdateList m2 indep dep ∧
  ∀ r1 r2 out1 out2,
    makeUpdateList m1 indep dep = Returned (r1, out1) →
    makeUpdateList m2 indep dep = Returned (r2, out2) →
    same_graph r1 r2.
Proof.
  intros Hsg. split; [symmetry; by apply makeUpdateList_agree|].
  intros r1 r2 out1 out2 H1%makeUpdateList_evolves H2%makeUpdateList_evolves.
  eapply same_graph_trans; [apply same_graph_sym, evolves_same_graph, H1|].
  eapply same_graph_trans; [exact Hsg | by apply evolves_same_graph].
Qed.

(** X7. A call of [makeUpdateList] that returned can be repeated: on the
    map the first call left behind, the same sets give the same list, and
    the second call adds no node.  The counters the first call left in the
    nodes do no harm, because [makeUpdateOrder] sets them anew. *)
Theorem makeUpdateList_again (m : DepMap) indep dep m' out :
  makeUpdateList m indep dep = Returned (m', out) →
  ∃ m'', makeUpdateList m' indep dep = Returned (m'', out) ∧ dom m'' = dom m'.
Proof.
  intros Hret. pose proof (makeUpdateList_evolves _ _ _ _ _ Hret) as He.
  pose proof (makeUpdateList_agree m m' indep dep (evolves_same_graph _ _ He)) as Hag.
  rewrite Hret in Hag.
  destruct (makeUpdateList m' indep dep) as [[m'' out']| | |] eqn:Hret'; try done.
  simpl in Hag. injection Hag as ->. exists m''. split; [done|].
  (* the keys: the second call finds every node it asks for *)
  destruct (makeUpdateList_phases m indep dep)
    as (m1 & P & D & _ & _ & Heq & He1 & Hdom1 & HP & _ & HD).
  destruct (makeUpdateList_phases m' indep dep)
    as (m1' & P' & D' & _ & _ & Heq' & He1' & Hdom1' & HP' & _ & HD').
  rewrite Heq in Hret. rewrite Heq' in Hret'.
  pose proof (makeUpdateOrder_outcome indep m1 D HD) as Ho. rewrite Hret in Ho.
  pose proof (makeUpdateOrder_outcome indep m1' D' HD') as Ho'. rewrite Hret' in Ho'.
  destruct Ho as [[Hd _] _], Ho' as [[Hd' _] _].
  rewrite Hd', Hdom1', Hd, Hdom1. apply set_eq. intros x.
  rewrite !elem_of_union, HP, HP'.
  rewrite <- (required_same_graph m m' _ x (evolves_same_graph _ _ He)). tauto.
Qed.

(** X8. On a map built by the constructor the returned list holds no
    variable twice. *)
Theorem makeUpdateList_no_repeat (m : DepMap) indep dep m' out :
  reachable m →
  makeUpdateList m indep dep = Returned (m', out) →
  ∀ i j pv, out !! i = Some (Some pv) → out !! j = Some (Some pv) → i = j.
Proof.
  intros Hreach Hret i j pv Hi Hj.
  destruct (reachable_invariant m Hreach) as [_ Hkey].
  destruct (makeUpdateList_phases m indep dep)
    as (m1 & P & D & _ & _ & Heq & He & _ & _ & _ & HD).
  rewrite Heq in Hret.
  pose proof (makeUpdateOrder_outcome indep m1 D HD) as Ho. rewrite Hret in Ho.
  destruct Ho as (_ & ids & Hperm & ->).
  pose proof (evolves_keyed_by_id _ _ He Hkey) as Hkey1.
  rewrite list_lookup_fmap in Hi, Hj.
  destruct (ids !! i) as [x|] eqn:Ex; [|done].
  destruct (ids !! j) as [y|] eqn:Ey; [|done].
  simpl in Hi, Hj. injection Hi as Hi. injection Hj as Hj.
  apply Hkey1 in Hi, Hj. subst x y.
  eapply NoDup_lookup; [|exact Ex|exact Ey]. rewrite Hperm. apply NoDup_set_iter.
Qed.

(** X9. The returned list holds a null variable pointer exactly when the
    relevant subgraph has a node without variable; this is so when an
    independent variable has no node of its own (a constant, say) and a
    dependent variable needs its identifier. *)
Theorem makeUpdateList_null_entries (m : DepMap) indep dep m' out :
  makeUpdateList m indep dep = Returned (m', out) →
  (None ∈ out ↔ ∃ id, in_subgraph m indep dep id ∧ var_of m id = None) ∧
  (∀ pv, pv ∈ indep → var_of m (getId pv) = None →
         required m (ids_of dep) (getId pv) → None ∈ out).
Proof.
  intros Hret.
  destruct (makeUpdateList_phases m indep dep)
    as (m1 & P & D & _ & _ & Heq & He & _ & _ & HDrel & HD).
  rewrite Heq in Hret.
  pose proof (makeUpdateOrder_outcome indep m1 D HD) as Ho. rewrite Hret in Ho.
  destruct Ho as (_ & ids & Hperm & ->).
  assert (Hnull : None ∈ var_of m1 <$> ids
                  ↔ ∃ id, in_subgraph m indep dep id ∧ var_of m id = None).
  { rewrite list_elem_of_fmap. split.
    - intros (id & Hv & Hid). exists id. split.
      + apply HDrel. by rewrite Hperm, elem_of_set_iter in Hid.
      + by destruct (He id) as (_&_&_&<-).
    - intros (id & Hid & Hv). exists id. split.
      + by destruct (He id) as (_&_&_&->).
      + rewrite Hperm, elem_of_set_iter. by apply HDrel. }
  split; [done|]. intros pv Hin Hv Hreq. apply Hnull. exists (getId pv).
  split; [|done]. apply relevant_independent; [|done].
  unfold ids_of. apply elem_of_map. by exists pv.
Qed.

(** X10. Empty sets.  Without dependent variables [makeUpdateList] returns
    the empty list and leaves the map, counters included, as it is; without
    independent variables it returns the empty list, even when the
    dependents lie on a dependency cycle. *)
Theorem makeUpdateList_empty_sets (m : DepMap) (indep dep : VariableSet) :
  makeUpdateList m indep ∅ = Returned (m, []) ∧
  ∃ m', makeUpdateList m ∅ dep = Returned (m', []).
Proof.
  split.
  - unfold makeUpdateList, makeUpdatePredecessors. rewrite elements_empty. simpl.
    destruct (size (allIds m) + 0)%nat; simpl.
    + unfold makeUpdateFollowers.
      destruct (foll_init_fold ∅ (elements indep) [] ∅) as (new & -> & Hn).
      destruct new as [|x new]; [|destruct (proj1 (Hn x) ltac:(left)); set_solver].
      simpl. replace (list_to_set (getId <$> elements indep) ∩ ∅ ∪ ∅) with (∅ : gset Z)
        by set_solver.
      by destruct (size (∅ : gset Z) + 0)%nat.
    + unfold makeUpdateFollowers.
      destruct (foll_init_fold ∅ (elements indep) [] ∅) as (new & -> & Hn).
      destruct new as [|x new]; [|destruct (proj1 (Hn x) ltac:(left)); set_solver].
      simpl. replace (list_to_set (getId <$> elements indep) ∩ ∅ ∪ ∅) with (∅ : gset Z)
        by set_solver.
      by destruct (size (∅ : gset Z) + 0)%nat.
  - destruct (makeUpdateList_phases m ∅ dep)
      as (m1 & P & D & _ & _ & -> & _ & _ & _ & HDrel & _).
    assert (D = ∅) as ->.
    { apply set_eq. intros x. rewrite HDrel. split; [|set_solver].
      intros H. exfalso. induction H as [id Hid _|]; [|done].
      unfold ids_of in Hid. apply elem_of_map in Hid as (pv & _ & Hpv). set_solver. }
    exists m1. reflexivity.
Qed.

End GraphOnly.

(** ** References to identifiers without a variable *)

Section References.
Context `{VM : VariableModel}.

Lemma dropDependsOn_deps_of (m : DepMap) y id k :
  deps_of (dropDependsOn y id m) k
  = if decide (k = y) then deps_of m y ∖ {[id]} else deps_of m k.
Proof.
  unfold dropDependsOn, deps_of. rewrite lookup_total_alter.
  destruct (decide (y = k)) as [->|Hne].
  - rewrite decide_True by done. rewrite (lookup_total_alt m k).
    destruct (m !! k); simpl; [done|]. set_solver.
  - by rewrite decide_False by (intros ->; done).
Qed.

Lemma DependencyMap_new_no_variable vars (m : DepMap) k :
  DependencyMap_new vars = Returned m → var_of m k = None → deps_of m k = ∅.
Proof.
  unfold DependencyMap_new, constructMap. rewrite constructMapRecursive_flat.
  destruct (addVariables ∅ (block_variables vars)) as [m1| | |] eqn:E; simpl; try done.
  intros [= <-].
  assert (Hf : fresh_nodes m1).
  { eapply addVariables_fresh; [|exact E]. intros k' n. by rewrite lookup_empty. }
  destruct (constructMap_entry_fold (map_iter m1) m1) as (_ & Hd & Hv & _).
  rewrite Hv, Hd. intros Hnone.
  destruct (m1 !! k) as [n|] eqn:En.
  - destruct (Hf k n En) as (_ & pv & Hpv & _). unfold var_of in Hnone.
    rewrite (lookup_total_correct _ _ _ En) in Hnone. congruence.
  - by apply deps_of_absent.
Qed.

Lemma reachable_no_variable (m : DepMap) k :
  reachable m → var_of m k = None → deps_of m k = ∅.
Proof.
  induction 1 as [vars m H|m _ IH|m indep dep m' out _ IH H].
  - by eapply DependencyMap_new_no_variable.
  - by rewrite resetCounters_noop.
  - apply makeUpdateList_evolves in H. destruct (H k) as (_ & -> & _ & ->). done.
Qed.

Lemma relevant_source (m : DepMap) A (R : Z → Prop) id :
  inverse_edges m → deps_of m id = ∅ → relevant m A R id → id ∈ A.
Proof.
  intros Hwf Hd. inversion 1 as [id' HA HR|x y' Hx Hy HR]; subst; [done|].
  apply Hwf in Hy. rewrite Hd in Hy. set_solver.
Qed.

Lemma dropDependsOn_mods_of (m : DepMap) y id k :
  mods_of (dropDependsOn y id m) k = mods_of m k.
Proof.
  unfold dropDependsOn, mods_of. rewrite lookup_total_alter.
  case_decide as E; [subst k|done].
  rewrite (lookup_total_alt m y). by destruct (m !! y).
Qed.

Lemma dropDependsOn_var_of (m : DepMap) y id k :
  var_of (dropDependsOn y id m) k = var_of m k.
Proof.
  unfold dropDependsOn, var_of. rewrite lookup_total_alter.
  case_decide as E; [subst k|done].
  rewrite (lookup_total_alt m y). by destruct (m !! y).
Qed.

Lemma required_dropDependsOn_sub (m : DepMap) B y id x :
  required (dropDependsOn y id m) B x → required m B x.
Proof.
  induction 1 as [|x z _ IH Hx]; [by constructor|].
  eapply required_dependsOn; [exact IH|].
  rewrite dropDependsOn_deps_of in Hx. case_decide; [subst z|done]. set_solver.
Qed.

Lemma required_dropDependsOn_other (m : DepMap) B y id x :
  deps_of m id = ∅ → required m B x → x ≠ id → required (dropDependsOn y id m) B x.
Proof.
  intros Hd. induction 1 as [|x z Hz IH Hx]; intros Hne; [by constructor|].
  assert (z ≠ id) by (intros ->; rewrite Hd in Hx; set_solver).
  eapply required_dependsOn; [by apply IH|].
  rewrite dropDependsOn_deps_of. case_decide; [subst z|done]. set_solver.
Qed.

Lemma in_subgraph_dropDependsOn (m : DepMap) indep dep y id x :
  inverse_edges m → deps_of m id = ∅ → id ∉ ids_of indep →
  in_subgraph (dropDependsOn y id m) indep dep x ↔ in_subgraph m indep dep x.
Proof.
  intros Hwf Hd Hid. unfold in_subgraph. split.
  - induction 1 as [k HA HR|a b _ IH Hb HR].
    + apply relevant_independent; [done | by eapply required_dropDependsOn_sub].
    + eapply relevant_modifies; [exact IH | by rewrite dropDependsOn_mods_of in Hb |
                                 by eapply required_dropDependsOn_sub].
  - induction 1 as [k HA HR|a b _ IH Hb HR].
    + apply relevant_independent; [done|].
      apply required_dropDependsOn_other; [done..|]. by intros ->.
    + eapply relevant_modifies; [exact IH | by rewrite dropDependsOn_mods_of |].
      apply required_dropDependsOn_other; [done..|].
      intros ->. apply Hwf in Hb. rewrite Hd in Hb. set_solver.
Qed.

Lemma makeUpdateList_dropDependsOn (m : DepMap) indep dep y id :
  inverse_edges m → deps_of m id = ∅ → id ∉ ids_of indep →
  snd <$> makeUpdateList m indep dep
  = snd <$> makeUpdateList (dropDependsOn y id m) indep dep.
Proof.
  intros Hwf Hd Hid.
  destruct (makeUpdateList_phases m indep dep)
    as (m1 & P & D & _ & _ & -> & He & _ & _ & HDrel & HD).
  destruct (makeUpdateList_phases (dropDependsOn y id m) indep dep)
    as (m1' & P' & D' & _ & _ & -> & He' & _ & _ & HDrel' & HD').
  assert (D' = D) as ->.
  { apply set_eq. intros x. rewrite HDrel, HDrel'. by apply in_subgraph_dropDependsOn. }
  assert (HidD : id ∉ D).
  { rewrite HDrel. intros H. apply Hid. by eapply relevant_source. }
  destruct (makeUpdateOrder_init indep m1 D HD) as (a2 & -> & [Hda Hsa] & Hia & _).
  destruct (makeUpdateOrder_init indep m1' D HD') as (b2 & -> & [Hdb Hsb] & Hib & _).
  symmetry. apply order_loop_agree; [|by intros k Hk%elem_of_set_iter].
  split_and!.
  - by rewrite Hda.
  - by rewrite Hdb.
  - intros k. destruct (Hsa k) as (_ & -> & ->), (Hsb k) as (_ & -> & ->).
    destruct (He k) as (_ & _ & -> & ->), (He' k) as (_ & _ & -> & ->).
    by rewrite dropDependsOn_mods_of, dropDependsOn_var_of.
  - intros k Hk. rewrite Hia, Hib by done.
    destruct (He k) as (_ & -> & _), (He' k) as (_ & -> & _).
    rewrite dropDependsOn_deps_of. case_decide; [subst k|done]. do 2 f_equal.
    apply set_eq. intros x. set_unfold. split; [tauto|].
    intros [H1 H2]. split_and!; try done. by intros ->.
Qed.

Lemma count_in_remove (D s : gset Z) id :
  id ∈ s →
  count_in D s = count_in D (s ∖ {[id]}) + (if decide (id ∈ D) then 1 else 0).
Proof.
  intros Hs. rewrite !count_in_size. destruct (decide (id ∈ D)) as [HD|HD].
  - replace ((s ∖ {[id]}) ∩ D) with ((s ∩ D) ∖ {[id]}).
    2:{ apply set_eq. intros x. rewrite elem_of_difference, !elem_of_intersection,
          elem_of_difference. tauto. }
    assert (Hin : id ∈ s ∩ D) by (by apply elem_of_intersection).
    pose proof (size_remove (s ∩ D) id Hin). lia.
  - rewrite Z.add_0_r. do 2 f_equal.
    apply set_eq. intros x. set_unfold. split; [|tauto].
    intros [H1 H2]. split_and!; try done. by intros ->.
Qed.

(** C8. References to an identifier without a variable.  On a map built
    by the constructor every identifier in a [dependsOn] set has a node;
    for an identifier that names a constant or a variable outside the
    scope tree it is the node [operator[]] made in [constructMap], without
    variable and with an empty [dependsOn] set.  Let [y] be a node of the
    relevant subgraph and [id] such an identifier in its [dependsOn] set.
    - [id] is in the relevant subgraph exactly when it is the identifier
      of an independent variable of the call.
    - In the set [deps] that [makeUpdateFollowers] hands to
      [makeUpdateOrder], the count for the node [id] is 0, and the count
      for [y] is the count without [id], plus 1 exactly when [id] is the
      identifier of an independent variable.
    - When [id] is not the identifier of an independent variable, the
      outcome of [makeUpdateList] (the list it returns, or the assertion
      it stops at) is the one it has with [id] taken out of the
      [dependsOn] set of [y].
    - In either case, when [makeUpdateList] stops at its assertion, there
      is a dependency cycle in the relevant subgraph, and [id] is not on
      it. *)
Theorem unresolvable_reference_benign (m : DepMap) indep dep y id :
  reachable m →
  in_subgraph m indep dep y →
  id ∈ deps_of m y →
  var_of m id = None →
  (is_Some (m !! id) ∧ deps_of m id = ∅) ∧
  (in_subgraph m indep dep id ↔ id ∈ ids_of indep) ∧
  (∃ m1 P D,
     makeUpdatePredecessors m dep = Returned (m1, P) ∧
     makeUpdateFollowers m1 indep P = Returned D ∧
     y ∈ D ∧ (id ∈ D ↔ id ∈ ids_of indep) ∧
     count_in D (dependsOn (m1 !!! id)) = 0 ∧
     count_in D (dependsOn (m1 !!! y))
     = count_in D (dependsOn (m1 !!! y) ∖ {[id]})
       + (if decide (id ∈ ids_of indep) then 1 else 0)) ∧
  (id ∉ ids_of indep →
     snd <$> makeUpdateList m indep dep
     = snd <$> makeUpdateList (dropDependsOn y id m) indep dep) ∧
  (makeUpdateList m indep dep = AssertFailed →
     ∃ cycle, is_cycle m cycle ∧ id ∉ cycle ∧
              ∀ c, c ∈ cycle → in_subgraph m indep dep c).
Proof.
  intros Hreach Hy Hid Hv.
  destruct (reachable_invariant m Hreach) as [Hwf _].
  pose proof (reachable_no_variable m id Hreach Hv) as Hd.
  assert (Hsub : in_subgraph m indep dep id ↔ id ∈ ids_of indep).
  { split; [by apply relevant_source|]. intros HA.
    apply relevant_independent; [done|].
    eapply required_dependsOn; [|exact Hid]. by eapply relevant_in. }
  split_and!.
  - apply Hwf in Hid. by eapply mods_of_present.
  - done.
  - done.
  - destruct (makeUpdateList_phases m indep dep)
      as (m1 & P & D & Hp & Hf & _ & He & _ & _ & HDrel & _).
    exists m1, P, D. split_and!; try done.
    + by apply HDrel.
    + by rewrite HDrel.
    + fold (deps_of m1 id). destruct (He id) as (_ & -> & _). rewrite Hd.
      rewrite count_in_size. replace (∅ ∩ D) with (∅ : gset Z) by set_solver. done.
    + fold (deps_of m1 y). destruct (He y) as (_ & -> & _).
      rewrite (count_in_remove D (deps_of m y) id Hid). f_equal.
      destruct (decide (id ∈ D)) as [H|H], (decide (id ∈ ids_of indep)) as [H'|H'];
        try done; exfalso; rewrite HDrel, Hsub in H; tauto.
  - intros HA. by apply makeUpdateList_dropDependsOn.
  - intros Hfail.
    destruct (makeUpdateList_phases m indep dep)
      as (m1 & P & D & _ & _ & Heq & He & _ & _ & HDrel & HD).
    rewrite Heq in Hfail.
    pose proof (evolves_inverse_edges _ _ He Hwf) as Hwf1.
    destruct (makeUpdateOrder_start indep m1 D HD) as (m2 & Hstart & Hinv).
    rewrite Hstart in Hfail.
    destruct (order_loop_stuck m1 D _ m2 [] (set_iter D) [] Hwf1 HD Hinv ltac:(done) Hfail)
      as (W & HW & HWD & Hsucc).
    destruct (cycle_exists m1 W HW Hsucc) as (c & Hc & HcW).
    assert (Hcm : is_cycle m c).
    { destruct c as [|x c]; [done|]. apply (chain_ext m1 m); [|done].
      intros k. by destruct (He k) as (_&?&_). }
    exists c. split_and!; [done| |].
    + intros Hin. destruct (is_cycle_next m c Hcm id Hin) as (c' & _ & Hc').
      rewrite Hd in Hc'. set_solver.
    + intros z Hz. by apply HDrel, HWD, HcW.
Qed.

End References.

(** ** Larger sets give a larger list *)

Section Monotone.
Context `{VM : VariableModel}.

Lemma required_mono (m : DepMap) (B B' : gset Z) x :
  B ⊆ B' → required m B x → required m B' x.
Proof.
  intros HB. induction 1 as [id Hid|x y _ IH Hx].
  - apply required_dependent. by apply HB.
  - by eapply required_dependsOn.
Qed.

Lemma relevant_mono (m : DepMap) (A A' : gset Z) (R R' : Z → Prop) x :
  A ⊆ A' → (∀ y, R y → R' y) → relevant m A R x → relevant m A' R' x.
Proof.
  intros HA HR. induction 1 as [id Hid HRid|x y _ IH Hy HRy].
  - apply relevant_independent; [by apply HA | by apply HR].
  - eapply relevant_modifies; [exact IH | done | by apply HR].
Qed.

Lemma ids_of_mono (s s' : VariableSet) : s ⊆ s' → ids_of s ⊆ ids_of s'.
Proof.
  intros Hs id (pv & -> & Hpv)%elem_of_map. apply elem_of_map. exists pv.
  split; [done | by apply Hs].
Qed.

(** The entries of a returned list are the variables of the nodes of the
    relevant subgraph. *)
Lemma makeUpdateList_entries (m : DepMap) indep dep m' out o :
  makeUpdateList m indep dep = Returned (m', out) →
  o ∈ out ↔ ∃ id, in_subgraph m indep dep id ∧ var_of m id = o.
Proof.
  intros Hret.
  destruct (makeUpdateList_phases m indep dep)
    as (m1 & P & D & _ & _ & Heq & He & _ & _ & HDrel & HD).
  rewrite Heq in Hret.
  pose proof (makeUpdateOrder_outcome indep m1 D HD) as Ho. rewrite Hret in Ho.
  destruct Ho as (_ & ids & Hperm & ->). rewrite list_elem_of_fmap. split.
  - intros (id & -> & Hid). exists id. split.
    + apply HDrel. by rewrite Hperm, elem_of_set_iter in Hid.
    + by destruct (He id) as (_&_&_&->).
  - intros (id & Hid & <-). exists id. split.
    + by destruct (He id) as (_&_&_&->).
    + rewrite Hperm, elem_of_set_iter. by apply HDrel.
Qed.

(** X14. More independent or more dependent variables never take an entry
    out of the list: when [makeUpdateList] returns for the sets [indep],
    [dep] and for larger sets [indep'], [dep'] on the same map, every entry
    of the first list is an entry of the second.  So [addIndependent] and
    [addDependent] can only extend what has to be updated. *)
Theorem makeUpdateList_monotone (m : DepMap) indep dep indep' dep' m1 out1 m2 out2 :
  indep ⊆ indep' → dep ⊆ dep' →
  makeUpdateList m indep dep = Returned (m1, out1) →
  makeUpdateList m indep' dep' = Returned (m2, out2) →
  ∀ o, o ∈ out1 → o ∈ out2.
Proof.
  intros Hi Hd H1 H2 o Ho.
  apply (makeUpdateList_entries _ _ _ _ _ _ H1) in Ho as (id & Hid & Hv).
  apply (makeUpdateList_entries _ _ _ _ _ _ H2). exists id. split; [|done].
  unfold in_subgraph in *. eapply relevant_mono; [by apply ids_of_mono | | exact Hid].
  intros y. apply required_mono. by apply ids_of_mono.
Qed.

End Monotone.

(** ** Termination *)

Section Termination.
Context `{VM : VariableModel}.

(** X13. [makeUpdateList] ends on every dependency map, built by the
    constructor or not, and for all sets of variables: the two worklist
    loops put an identifier into their working set only when it enters
    the result, which bounds their rounds, and the main loop of
    [makeUpdateOrder] erases an element in every round.  The call returns
    a list or stops at an assertion; it throws nothing. *)
Theorem makeUpdateList_halts (m : DepMap) indep dep :
  (∃ m' out, makeUpdateList m indep dep = Returned (m', out)) ∨
  makeUpdateList m indep dep = AssertFailed.
Proof.
  destruct (makeUpdateList_phases m indep dep)
    as (m1 & P & D & _ & _ & -> & _ & _ & _ & _ & HD).
  pose proof (makeUpdateOrder_outcome indep m1 D HD) as Ho.
  destruct (makeUpdateOrder indep m1 D) as [[m' out]| | |]; [left; eauto | done | by right | done].
Qed.

End Termination.

(** * The further properties on concrete inputs *)

Lemma cyc_resolved_fails : makeUpdateList cyc_map (only cA) (only cB) = AssertFailed.
Proof. vm_compute. reflexivity. Qed.

Lemma cyc_const_resolved_returned :
  cyc_const_resolved
  = Returned (map_after cyc_const_resolved, [None; Some (var 3 [7])]).
Proof. vm_compute. reflexivity. Qed.

Lemma abc_same_graph : same_graph abc_map (map_after abc_resolved).
Proof.
  apply evolves_same_graph.
  exact (makeUpdateList_evolves _ _ _ _ _ abc_resolved_returned).
Qed.

(** X2 on the scenario A, B, C, D. *)
Lemma DependencyMap_new_variable_nodes_witness :
  DependencyMap_new abc = Returned abc_map ∧
  (∀ pv, pv ∈ block_variables abc → isConstant pv = false →
     ∃ n, abc_map !! getId pv = Some n ∧ v n = Some pv ∧
          dependsOn n = getDependencies pv) ∧
  (∀ k n pv, abc_map !! k = Some n → v n = Some pv →
     pv ∈ block_variables abc ∧ isConstant pv = false ∧ getId pv = k ∧
     dependsOn n = getDependencies pv).
Proof.
  split; [exact abc_map_built|].
  exact (DependencyMap_new_variable_nodes abc abc_map abc_map_built).
Defined.

(** X3 on the tree with the variable that reads the constant 7. *)
Lemma DependencyMap_new_keys_witness :
  DependencyMap_new cyc = Returned cyc_map ∧
  (∀ k, is_Some (cyc_map !! k) ↔
     ∃ pv, pv ∈ block_variables cyc ∧ isConstant pv = false ∧
           (getId pv = k ∨ k ∈ getDependencies pv)) ∧
  (∀ k n y, cyc_map !! k = Some n →
     (y ∈ modifies n ↔
        ∃ pv, pv ∈ block_variables cyc ∧ isConstant pv = false ∧
              getId pv = y ∧ k ∈ getDependencies pv)) ∧
  (∀ k n, cyc_map !! k = Some n → v n = None → dependsOn n = ∅).
Proof.
  split; [exact cyc_map_built|].
  exact (DependencyMap_new_keys cyc cyc_map cyc_map_built).
Defined.

(** X4 on two variables that read each other. *)
Lemma makeUpdateList_assert_cycle_witness :
  reachable cyc_map ∧
  makeUpdateList cyc_map (only cA) (only cB) = AssertFailed ∧
  ∃ cycle, is_cycle cyc_map cycle ∧
           ∀ c, c ∈ cycle → in_subgraph cyc_map (only cA) (only cB) c.
Proof.
  split; [exact cyc_map_reachable|]. split; [exact cyc_resolved_fails|].
  exact (makeUpdateList_assert_cycle cyc_map (only cA) (only cB)
           cyc_map_reachable cyc_resolved_fails).
Defined.

(** X5 on the scenario A, B, C. *)
Lemma makeUpdateList_smallest_ready_first_witness :
  reachable abc_map ∧
  makeUpdateList abc_map (only vA) (only vC)
    = Returned (map_after abc_resolved, [Some vA; Some vB; Some vC]) ∧
  ∃ ids, [Some vA; Some vB; Some vC] = var_of (map_after abc_resolved) <$> ids ∧
         NoDup ids ∧
         (∀ id, id ∈ ids ↔ in_subgraph abc_map (only vA) (only vC) id) ∧
         smallest_ready_first (map_after abc_resolved) ids.
Proof.
  split; [exact abc_map_reachable|]. split; [exact abc_resolved_returned|].
  exact (makeUpdateList_smallest_ready_first abc_map (only vA) (only vC) _ _
           abc_map_reachable abc_resolved_returned).
Defined.

(** X6 on the map of the scenario before and after a resolution. *)
Lemma makeUpdateList_graph_only_witness :
  same_graph abc_map (map_after abc_resolved) ∧
  snd <$> makeUpdateList abc_map (only vA) (only vC)
  = snd <$> makeUpdateList (map_after abc_resolved) (only vA) (only vC) ∧
  ∀ r1 r2 out1 out2,
    makeUpdateList abc_map (only vA) (only vC) = Returned (r1, out1) →
    makeUpdateList (map_after abc_resolved) (only vA) (only vC) = Returned (r2, out2) →
    same_graph r1 r2.
Proof.
  split; [exact abc_same_graph|].
  exact (makeUpdateList_graph_only abc_map (map_after abc_resolved)
           (only vA) (only vC) abc_same_graph).
Defined.

(** X7 on the scenario A, B, C. *)
Lemma makeUpdateList_again_witness :
  makeUpdateList abc_map (only vA) (only vC)
    = Returned (map_after abc_resolved, [Some vA; Some vB; Some vC]) ∧
  ∃ m'', makeUpdateList (map_after abc_resolved) (only vA) (only vC)
           = Returned (m'', [Some vA; Some vB; Some vC]) ∧
         dom m'' = dom (map_after abc_resolved).
Proof.
  split; [exact abc_resolved_returned|].
  exact (makeUpdateList_again abc_map (only vA) (only vC) _ _ abc_resolved_returned).
Defined.

(** X8 on the scenario A, B, C. *)
Lemma makeUpdateList_no_repeat_witness :
  reachable abc_map ∧
  makeUpdateList abc_map (only vA) (only vC)
    = Returned (map_after abc_resolved, [Some vA; Some vB; Some vC]) ∧
  ∀ i j pv, [Some vA; Some vB; Some vC] !! i = Some (Some pv) →
            [Some vA; Some vB; Some vC] !! j = Some (Some pv) → i = j.
Proof.
  split; [exact abc_map_reachable|]. split; [exact abc_resolved_returned|].
  exact (makeUpdateList_no_repeat abc_map (only vA) (only vC) _ _
           abc_map_reachable abc_resolved_returned).
Defined.

(** X9 on the constant 7 as independent variable. *)
Lemma makeUpdateList_null_entries_witness :
  makeUpdateList cyc_map (only (const 7)) (only (var 3 [7]))
    = Returned (map_after cyc_const_resolved, [None; Some (var 3 [7])]) ∧
  (None ∈ [None; Some (var 3 [7])] ↔
     ∃ id, in_subgraph cyc_map (only (const 7)) (only (var 3 [7])) id ∧
           var_of cyc_map id = None) ∧
  (∀ pv, pv ∈ only (const 7) → var_of cyc_map (getId pv) = None →
         required cyc_map (ids_of (only (var 3 [7]))) (getId pv) →
         None ∈ [None; Some (var 3 [7])]).
Proof.
  split; [exact cyc_const_resolved_returned|].
  exact (makeUpdateList_null_entries cyc_map (only (const 7)) (only (var 3 [7])) _ _
           cyc_const_resolved_returned).
Defined.

Lemma cyc_reads_in_subgraph :
  in_subgraph cyc_map (only (var 3 [7])) (only (var 3 [7])) 3.
Proof.
  apply relevant_independent; [vm_compute; reflexivity|].
  apply required_dependent. vm_compute. reflexivity.
Qed.

Lemma cyc_const_in_subgraph :
  in_subgraph cyc_map (only (const 7)) (only (var 3 [7])) 3.
Proof.
  assert (H3 : required cyc_map (ids_of (only (var 3 [7]))) 3)
    by (apply required_dependent; vm_compute; reflexivity).
  apply (relevant_modifies _ _ _ 7 3); [|vm_compute; reflexivity|exact H3].
  apply relevant_independent; [vm_compute; reflexivity|].
  apply (required_dependsOn _ _ 7 3); [exact H3|]. vm_compute. reflexivity.
Qed.

(** C8 as stated fails when the constant is itself an independent
    variable: the node [operator[]] made for the identifier 7 is in the
    relevant subgraph, it counts in the counter of the node 3 that reads
    it, and it is put in the list, with a null variable pointer. *)
Lemma constant_reference_counted :
  reachable cyc_map ∧
  in_subgraph cyc_map (only (const 7)) (only (var 3 [7])) 3 ∧
  7 ∈ deps_of cyc_map 3 ∧
  isConstant (const 7) = true ∧ var_of cyc_map 7 = None ∧
  makeUpdatePredecessors cyc_map (only (var 3 [7]))
    = Returned (cyc_map, {[3]} ∪ {[7]}) ∧
  makeUpdateFollowers cyc_map (only (const 7)) ({[3]} ∪ {[7]})
    = Returned ({[3]} ∪ {[7]}) ∧
  count_in ({[3]} ∪ {[7]}) (dependsOn (cyc_map !!! 3)) = 1 ∧
  count_in ({[3]} ∪ {[7]}) (dependsOn (cyc_map !!! 3) ∖ {[7]}) = 0 ∧
  makeUpdateList cyc_map (only (const 7)) (only (var 3 [7]))
    = Returned (map_after cyc_const_resolved, [None; Some (var 3 [7])]).
Proof.
  split; [exact cyc_map_reachable|]. split; [exact cyc_const_in_subgraph|].
  split; [vm_compute; reflexivity|]. split; [reflexivity|].
  split; [vm_compute; reflexivity|]. split; [vm_compute; reflexivity|].
  split; [vm_compute; reflexivity|]. split; [vm_compute; reflexivity|].
  split; [vm_compute; reflexivity|]. exact cyc_const_resolved_returned.
Qed.

(** C8 on the variable 3 that reads the constant 7, as independent and
    dependent variable. *)
Lemma unresolvable_reference_benign_witness :
  reachable cyc_map ∧
  in_subgraph cyc_map (only (var 3 [7])) (only (var 3 [7])) 3 ∧
  7 ∈ deps_of cyc_map 3 ∧
  var_of cyc_map 7 = None ∧
  (is_Some (cyc_map !! 7) ∧ deps_of cyc_map 7 = ∅) ∧
  (in_subgraph cyc_map (only (var 3 [7])) (only (var 3 [7])) 7
     ↔ 7 ∈ ids_of (only (var 3 [7]))) ∧
  (∃ m1 P D,
     makeUpdatePredecessors cyc_map (only (var 3 [7])) = Returned (m1, P) ∧
     makeUpdateFollowers m1 (only (var 3 [7])) P = Returned D ∧
     3 ∈ D ∧ (7 ∈ D ↔ 7 ∈ ids_of (only (var 3 [7]))) ∧
     count_in D (dependsOn (m1 !!! 7)) = 0 ∧
     count_in D (dependsOn (m1 !!! 3))
     = count_in D (dependsOn (m1 !!! 3) ∖ {[7]})
       + (if decide (7 ∈ ids_of (only (var 3 [7]))) then 1 else 0)) ∧
  (7 ∉ ids_of (only (var 3 [7])) →
     snd <$> makeUpdateList cyc_map (only (var 3 [7])) (only (var 3 [7]))
     = snd <$> makeUpdateList (dropDependsOn 3 7 cyc_map)
                 (only (var 3 [7])) (only (var 3 [7]))) ∧
  (makeUpdateList cyc_map (only (var 3 [7])) (only (var 3 [7])) = AssertFailed →
     ∃ cycle, is_cycle cyc_map cycle ∧ 7 ∉ cycle ∧
              ∀ c, c ∈ cycle →
                in_subgraph cyc_map (only (var 3 [7])) (only (var 3 [7])) c).
Proof.
  assert (H3 : 7 ∈ deps_of cyc_map 3) by (vm_compute; reflexivity).
  assert (H4 : var_of cyc_map 7 = None) by (vm_compute; reflexivity).
  split; [exact cyc_map_reachable|]. split; [exact cyc_reads_in_subgraph|].
  split; [exact H3|]. split; [exact H4|].
  exact (unresolvable_reference_benign cyc_map (only (var 3 [7])) (only (var 3 [7])) 3 7
           cyc_map_reachable cyc_reads_in_subgraph H3 H4).
Defined.

Lemma abcd_resolved_returned :
  abcd_resolved
  = Returned (map_after abcd_resolved, [Some vA; Some vB; Some vC; Some vD]).
Proof. vm_compute. reflexivity. Qed.

(** X14 on the scenario A, B, C, with D added to both sets. *)
Lemma makeUpdateList_monotone_witness :
  only vA ⊆ only vA ∪ only vD ∧ only vC ⊆ only vC ∪ only vD ∧
  makeUpdateList abc_map (only vA) (only vC)
    = Returned (map_after abc_resolved, [Some vA; Some vB; Some vC]) ∧
  makeUpdateList abc_map (only vA ∪ only vD) (only vC ∪ only vD)
    = Returned (map_after abcd_resolved, [Some vA; Some vB; Some vC; Some vD]) ∧
  ∀ o, o ∈ [Some vA; Some vB; Some vC] → o ∈ [Some vA; Some vB; Some vC; Some vD].
Proof.
  assert (H1 : only vA ⊆ only vA ∪ only vD) by apply union_subseteq_l.
  assert (H2 : only vC ⊆ only vC ∪ only vD) by apply union_subseteq_l.
  split; [exact H1|]. split; [exact H2|].
  split; [exact abc_resolved_returned|]. split; [exact abcd_resolved_returned|].
  exact (makeUpdateList_monotone abc_map _ _ _ _ _ _ _ _ H1 H2
           abc_resolved_returned abcd_resolved_returned).
Defined.
